(** * symbol-graph: reference graph of object-file symbols

    A shallow embedding of [symbol_graph.py] and the properties of its
    parser, size extractor, name decoder, graph builder and dominance
    analysis.

    Conventions of the embedding.
    - A Python [str] is a [string]; a character is a code point below 256
      (the [ascii] type read as Latin-1), so the character classes of
      [str.isnumeric], of [\w] and of [int()] are written out for that range.
    - A Python exception is a constructor of [exn]; a function that can raise
      returns a [result].
    - The two subprocess calls are text producers: the functions that call
      them take the produced text as an argument. *)

From Stdlib Require Import Bool Arith Lia List ZArith String Ascii.
From Stdlib Require Import DecimalString.
Import ListNotations.

Open Scope string_scope.
Open Scope bool_scope.

(** ** Exceptions and results *)

Inductive exn : Type :=
| IndexError        (* string index out of range *)
| ValueError        (* invalid literal for int() *)
| AttributeError    (* attribute lookup on None *)
| UnknownRootError. (* the dominance root is not a node *)

Inductive result (A : Type) : Type :=
| Ok (a : A)
| Raise (e : exn).

Arguments Ok {A} a.
Arguments Raise {A} e.

Definition bind {A B : Type} (c : result A) (k : A -> result B) : result B :=
  match c with
  | Ok a => k a
  | Raise e => Raise e
  end.

Notation "x <- c ;; k" := (bind c (fun x => k))
  (at level 61, c at next level, right associativity).

(** ** Characters *)

Definition code (c : ascii) : nat := nat_of_ascii c.

Definition in_range (lo hi : nat) (c : ascii) : bool :=
  (lo <=? code c)%nat && (code c <=? hi)%nat.

(** ASCII decimal digit, [0-9]. *)
Definition isdecimal (c : ascii) : bool := in_range 48 57 c.

(** [str.isnumeric] on one character: the decimal digits, the superscripts
    U+00B2, U+00B3, U+00B9 and the fractions U+00BC..U+00BE. *)
Definition isnumeric (c : ascii) : bool :=
  isdecimal c || in_range 178 179 c || in_range 185 185 c || in_range 188 190 c.

(** The class [[0-9a-f]] of the function-start pattern. *)
Definition is_lower_hex (c : ascii) : bool :=
  in_range 48 57 c || in_range 97 102 c.

(** The class [\w] of a [str] pattern: alphanumeric characters and the
    underscore. *)
Definition is_word (c : ascii) : bool :=
  in_range 48 57 c || in_range 65 90 c || in_range 97 122 c || in_range 95 95 c
  || in_range 170 170 c || in_range 178 179 c || in_range 181 181 c
  || in_range 185 186 c || in_range 188 190 c
  || in_range 192 214 c || in_range 216 246 c || in_range 248 255 c.

(** Whitespace that [int()] strips around a literal. *)
Definition isspace (c : ascii) : bool :=
  in_range 9 13 c || in_range 32 32 c || in_range 133 133 c
  || in_range 160 160 c.

(** Value of a character as a digit in bases up to 36. *)
Definition digit_val (c : ascii) : option Z :=
  if in_range 48 57 c then Some (Z.of_nat (code c) - 48)%Z
  else if in_range 97 122 c then Some (Z.of_nat (code c) - 87)%Z
  else if in_range 65 90 c then Some (Z.of_nat (code c) - 55)%Z
  else None.

Definition dquote : ascii := "034"%char.
Definition backslash : ascii := "092"%char.
Definition newline : ascii := "010"%char.
Definition space : ascii := " "%char.

(** ** Strings *)

Definition char (c : ascii) : string := String c EmptyString.

Fixpoint str_take (n : nat) (s : string) : string :=
  match n, s with
  | S n', String c s' => String c (str_take n' s')
  | _, _ => EmptyString
  end.

Fixpoint str_drop (n : nat) (s : string) : string :=
  match n, s with
  | S n', String _ s' => str_drop n' s'
  | _, _ => s
  end.

(** A slice bound [n] of a sequence of length [len], as Python clamps it. *)
Definition slice_bound (len : nat) (n : Z) : nat :=
  if (n <? 0)%Z then Z.to_nat (Z.of_nat len + n) else Z.to_nat n.

(** [s[:n]] and [s[n:]]. *)
Definition slice_to (s : string) (n : Z) : string :=
  str_take (slice_bound (String.length s) n) s.

Definition slice_from (s : string) (n : Z) : string :=
  str_drop (slice_bound (String.length s) n) s.

(** [l[:n]] on a list. *)
Definition list_slice_to {A : Type} (l : list A) (n : Z) : list A :=
  firstn (slice_bound (List.length l) n) l.

(** [s.startswith(p)]. *)
Fixpoint startswith (s p : string) {struct p} : bool :=
  match p, s with
  | EmptyString, _ => true
  | String a p', String b s' => Ascii.eqb a b && startswith s' p'
  | String _ _, EmptyString => false
  end.

(** [s.replace(old, new)] for a non-empty [old]: the occurrences of [old]
    are replaced from left to right, without overlap.  [skip] counts the
    characters of a replaced occurrence that are still to be passed. *)
Fixpoint replace_from (old new : string) (skip : nat) (s : string) : string :=
  match s with
  | EmptyString => EmptyString
  | String c s' =>
      match skip with
      | S k => replace_from old new k s'
      | O =>
          if startswith s old
          then new ++ replace_from old new (String.length old - 1) s'
          else String c (replace_from old new 0 s')
      end
  end.

Definition str_replace (old new s : string) : string :=
  replace_from old new 0 s.

(** [sep.join(parts)]. *)
Fixpoint str_join (sep : string) (parts : list string) : string :=
  match parts with
  | [] => EmptyString
  | [p] => p
  | p :: ps => p ++ sep ++ str_join sep ps
  end.

(** [s.split(sep)] for a separator of one character. *)
Fixpoint str_split (sep : ascii) (s : string) : list string :=
  match s with
  | EmptyString => [EmptyString]
  | String c s' =>
      if Ascii.eqb c sep then EmptyString :: str_split sep s'
      else match str_split sep s' with
           | [] => [char c]
           | p :: ps => String c p :: ps
           end
  end.

(** ** [int(s, base)] *)

Fixpoint lstrip (s : string) : string :=
  match s with
  | String c s' => if isspace c then lstrip s' else s
  | EmptyString => EmptyString
  end.

Fixpoint all_space (s : string) : bool :=
  match s with
  | String c s' => isspace c && all_space s'
  | EmptyString => true
  end.

(** The digits of a literal: digits of the base, single underscores between
    them, then only whitespace up to the end. *)
Fixpoint int_digits (base : Z) (s : string) (acc : Z) (after_digit : bool)
  : option Z :=
  match s with
  | EmptyString => if after_digit then Some acc else None
  | String c s' =>
      if Ascii.eqb c "_"
      then (if after_digit then int_digits base s' acc false else None)
      else
        match digit_val c with
        | Some d =>
            if (d <? base)%Z then int_digits base s' (acc * base + d)%Z true
            else if after_digit && all_space s then Some acc else None
        | None => if after_digit && all_space s then Some acc else None
        end
  end.

(** The sign of a literal. *)
Definition int_sign (s : string) : Z * string :=
  match s with
  | String "+" s' => (1%Z, s')
  | String "-" s' => ((-1)%Z, s')
  | _ => (1%Z, s)
  end.

(** The [0x] prefix of base 16, and the one underscore allowed after it. *)
Definition int_prefix (base : Z) (s : string) : string :=
  match s with
  | String "0" (String x s') =>
      if (base =? 16)%Z && (Ascii.eqb x "x" || Ascii.eqb x "X")
      then match s' with
           | String "_" s'' => s''
           | _ => s'
           end
      else s
  | _ => s
  end.

(** [int(s, base)] for a base of 2 to 36: optional whitespace around the
    literal, an optional sign, for base 16 an optional [0x], then digits.
    The bound that some versions of the interpreter put on the number of
    digits of a literal is left out. *)
Definition py_int (base : Z) (s : string) : result Z :=
  let '(sign, body) := int_sign (lstrip s) in
  match int_digits base (int_prefix base body) 0%Z false with
  | Some v => Ok (sign * v)%Z
  | None => Raise ValueError
  end.

(** [str(n)] of an integer, as an f-string field prints it. *)
Definition py_str_int (n : Z) : string := NilZero.string_of_int (Z.to_int n).

(** ** The name decoder *)

(** [encode_symbol]: every double quote gets a backslash before it. *)
Definition encode_symbol (sym : string) : string :=
  str_replace (char dquote) (String backslash (char dquote)) sym.

(** The inner loop of [demangle_rust]:
    [i = 1; while sym[i].isnumeric() and i < len(sym): i += 1].
    [rest] is [sym[i:]]; the index [sym[i]] is evaluated before the bound is
    compared, so it raises when [i] reaches the length of [sym]. *)
Fixpoint scan_length (rest : string) (len_sym i : nat) : result nat :=
  match rest with
  | EmptyString => Raise IndexError
  | String c rest' =>
      if isnumeric c && (i <? len_sym)%nat
      then scan_length rest' len_sym (S i)
      else Ok i
  end.

(** The outer [while True] loop of [demangle_rust].  Every turn that goes on
    shortens [sym], so a fuel above its length is never used up
    ([demangle_loop_fuel]); [None] stands for used-up fuel. *)
Fixpoint demangle_loop (fuel : nat) (sym : string) (parts : list string)
  : option (result (list string)) :=
  match fuel with
  | O => None
  | S fuel' =>
      match sym with
      | EmptyString => Some (Raise IndexError)
      | String c0 _ =>
          if Ascii.eqb c0 "_" then Some (Ok (parts ++ [sym])%list)
          else if negb (isnumeric c0) then Some (Ok (parts ++ [sym])%list)
          else
            match scan_length (str_drop 1 sym) (String.length sym) 1 with
            | Raise e => Some (Raise e)
            | Ok i =>
                match py_int 10 (slice_to sym (Z.of_nat i)) with
                | Raise e => Some (Raise e)
                | Ok n =>
                    let sym1 := slice_from sym (Z.of_nat i) in
                    demangle_loop fuel' (slice_from sym1 n)
                                  (parts ++ [slice_to sym1 n])%list
                end
            end
      end
  end.

(** The parts that the loop of [demangle_rust] collects from [sym]. *)
Definition demangle_parts (sym : string) : result (list string) :=
  match demangle_loop (S (String.length sym)) sym [] with
  | Some r => r
  | None => Raise IndexError
  end.

(** [demangle_rust], on a string. *)
Definition demangle_rust (sym : string) : result string :=
  if startswith sym "_ZN" then
    parts <- demangle_parts (slice_from sym 3) ;;
    let sym := str_join "::" (list_slice_to parts (-2)) in
    let sym := str_replace "$u20$" " " sym in
    let sym := str_replace "$LT$" "<" sym in
    let sym := str_replace "$GT$" ">" sym in
    Ok sym
  else Ok sym.

(** ** The size extractor *)

(** A [dict] from symbols to sizes, in insertion order. *)
Definition SizeDict := list (string * Z).

(** [d[k] = v]: the value of a key that is there is replaced in place, a
    new key is put last. *)
Fixpoint dict_set (k : string) (v : Z) (d : SizeDict) : SizeDict :=
  match d with
  | [] => [(k, v)]
  | (k', v') :: d' =>
      if String.eqb k' k then (k', v) :: d' else (k', v') :: dict_set k v d'
  end.

(** The value of the key [k], when it is there. *)
Fixpoint dict_get (k : string) (d : SizeDict) : option Z :=
  match d with
  | [] => None
  | (k', v') :: d' => if String.eqb k' k then Some v' else dict_get k d'
  end.

(** The loop of [symbol_sizes] over the lines of the table. *)
Fixpoint sizes_loop (lines : list string) (sizes : SizeDict)
  : result SizeDict :=
  match lines with
  | [] => Ok sizes
  | line :: rest =>
      let parts := str_split space line in
      if (List.length parts =? 4)%nat then
        size <- py_int 16 (nth 1 parts EmptyString) ;;
        let symbol := nth 3 parts EmptyString in
        sizes_loop rest (dict_set symbol size sizes)
      else sizes_loop rest sizes
  end.

(** [symbol_sizes], on the text [out] that the symbol-table tool printed. *)
Definition symbol_sizes (out : string) : result SizeDict :=
  sizes_loop (str_split newline out) [].

(** ** The disassembly parser *)

(** The longest prefix of [s] whose characters are in the class [f], and the
    rest of [s]. *)
Fixpoint span (f : ascii -> bool) (s : string) : string * string :=
  match s with
  | String c s' =>
      if f c then let '(a, b) := span f s' in (String c a, b)
      else (EmptyString, s)
  | EmptyString => (EmptyString, EmptyString)
  end.

(** [new_symbol_re.match(line)] for the pattern [[0-9a-f]+ <([\w]+)>:],
    giving group 1.  Each repetition is followed by a character outside its
    class, so the longest run is the only one that can match. *)
Definition new_symbol_match (line : string) : option string :=
  let '(addr, r1) := span is_lower_hex line in
  if (0 <? String.length addr)%nat && startswith r1 " <" then
    let '(name, r3) := span is_word (str_drop 2 r1) in
    if (0 <? String.length name)%nat && startswith r3 ">:" then Some name
    else None
  else None.

(** A match of [<([\w]+)>] at the start of [s], giving group 1. *)
Definition symbol_ref_match (s : string) : option string :=
  if startswith s "<" then
    let '(name, r2) := span is_word (str_drop 1 s) in
    if (0 <? String.length name)%nat && startswith r2 ">" then Some name
    else None
  else None.

(** [symbol_ref_re.findall(line)]: the matches from left to right, the search
    going on after the end of each match.  [skip] counts the characters of
    the last match that are still to be passed. *)
Fixpoint findall_from (skip : nat) (s : string) : list string :=
  match s with
  | EmptyString => []
  | String _ s' =>
      match skip with
      | S k => findall_from k s'
      | O =>
          match symbol_ref_match s with
          | Some name => name :: findall_from (String.length name + 1) s'
          | None => findall_from 0 s'
          end
      end
  end.

Definition symbol_refs (line : string) : list string := findall_from 0 line.

(** A raw edge: the current symbol, [None] before the first function-start
    line, and the referenced symbol. *)
Definition Edge : Type := option string * string.

(** The loop of [parse_edges]; [sym] is the current symbol. *)
Fixpoint parse_lines (sym : option string) (lines : list string) : list Edge :=
  match lines with
  | [] => []
  | line :: rest =>
      match new_symbol_match line with
      | Some name => parse_lines (Some name) rest
      | None =>
          (map (fun ref => (sym, ref)) (symbol_refs line)
             ++ parse_lines sym rest)%list
      end
  end.

(** [parse_edges]: the pairs that the generator yields, in order. *)
Definition parse_edges (asm : string) : list Edge :=
  parse_lines None (str_split newline asm).

(** [symbol_ref_edges], on the text that the disassembler printed. *)
Definition symbol_ref_edges (asm : string) : list Edge := parse_edges asm.

(** ** Directed graphs *)

(** Modelled from the spec: the class [nx.DiGraph] of the graph library,
    which is not part of the source.  A graph is a set of nodes, each with an
    optional size attribute, and a set of directed edges with at most one
    edge per ordered pair; adding an edge adds its endpoints as nodes when
    they are absent and does nothing when the edge is already there.  Both
    sets are kept in insertion order. *)
Record DiGraph : Type := mkDiGraph {
  nodes : list (string * option Z);
  edges : list (string * string)
}.

(** Modelled from the spec: [nx.DiGraph()], the graph with no node. *)
Definition empty_graph : DiGraph := mkDiGraph [] [].

(** Modelled from the spec: the node set of a graph. *)
Definition node_names (gr : DiGraph) : list string := map fst (nodes gr).

(** Modelled from the spec: [sym in gr.nodes]. *)
Definition has_node (n : string) (gr : DiGraph) : bool :=
  existsb (String.eqb n) (node_names gr).

(** Modelled from the spec: the graph has the edge from [u] to [v]. *)
Definition has_edge (u v : string) (gr : DiGraph) : bool :=
  existsb (fun e => String.eqb (fst e) u && String.eqb (snd e) v) (edges gr).

(** Modelled from the spec: a node is inserted when it is absent. *)
Definition add_node (n : string) (gr : DiGraph) : DiGraph :=
  if has_node n gr then gr
  else mkDiGraph (nodes gr ++ [(n, None)]) (edges gr).

(** Modelled from the spec: [gr.add_edge(u, v)], which inserts both ends as
    nodes when they are absent and does not insert an edge a second time. *)
Definition add_edge (u v : string) (gr : DiGraph) : DiGraph :=
  let gr := add_node v (add_node u gr) in
  if has_edge u v gr then gr
  else mkDiGraph (nodes gr) (edges gr ++ [(u, v)]).

(** Modelled from the spec: [gr.nodes[n]['size'] = size], which sets the
    size attribute of the node [n] of the graph. *)
Definition set_size (n : string) (size : Z) (gr : DiGraph) : DiGraph :=
  mkDiGraph
    (map (fun na => if String.eqb (fst na) n then (fst na, Some size) else na)
         (nodes gr))
    (edges gr).

(** Modelled from the spec: [gr.nodes[n]['size']], when the node has the
    attribute. *)
Definition node_size (n : string) (gr : DiGraph) : option Z :=
  match find (fun na => String.eqb (fst na) n) (nodes gr) with
  | Some (_, sz) => sz
  | None => None
  end.

(** The loop [for a, b in items: gr.add_edge(a, b)]. *)
Definition add_edges_from (des : list (string * string)) (gr : DiGraph)
  : DiGraph :=
  fold_left (fun g e => add_edge (fst e) (snd e) g) des gr.

(** ** The graph builder *)

(** A decoder is called on the caller of a raw edge, which is [None] before
    the first function-start line, and on strings. *)
Definition Demangler : Type := option string -> result string.

(** [demangle_rust] as a [Demangler]: on [None] the call of [startswith]
    raises. *)
Definition demangle_rust_sym (sym : option string) : result string :=
  match sym with
  | Some s => demangle_rust s
  | None => Raise AttributeError
  end.

(** The first loop of [to_digraph], over the raw edges. *)
Fixpoint add_edges (demangle : Demangler) (es : list Edge) (gr : DiGraph)
  : result DiGraph :=
  match es with
  | [] => Ok gr
  | (src, dest) :: rest =>
      src' <- demangle src ;;
      dest' <- demangle (Some dest) ;;
      add_edges demangle rest
                (add_edge (encode_symbol src') (encode_symbol dest') gr)
  end.

(** The second loop of [to_digraph], over the items of the size table. *)
Fixpoint add_sizes (demangle : Demangler) (sizes : SizeDict) (gr : DiGraph)
  : result DiGraph :=
  match sizes with
  | [] => Ok gr
  | (sym, size) :: rest =>
      sym' <- demangle (Some sym) ;;
      let sym' := encode_symbol sym' in
      add_sizes demangle rest
                (if has_node sym' gr then set_size sym' size gr else gr)
  end.

(** [to_digraph], on the texts [asm] of the disassembler and [out] of the
    symbol-table tool. *)
Definition to_digraph (asm out : string) (demangle : Demangler)
  : result DiGraph :=
  gr <- add_edges demangle (symbol_ref_edges asm) empty_graph ;;
  sizes <- symbol_sizes out ;;
  add_sizes demangle sizes gr.

(** ** The printed graph description *)

(** A computation that prints lines and may raise: it takes the lines
    printed so far and gives the lines printed when it stops. *)
Definition IO (A : Type) : Type := list string -> list string * result A.

Definition io_bind {A B : Type} (c : IO A) (k : A -> IO B) : IO B :=
  fun out =>
    match c out with
    | (out', Ok a) => k a out'
    | (out', Raise e) => (out', Raise e)
    end.

Definition io_lift {A : Type} (r : result A) : IO A := fun out => (out, r).

Definition print (line : string) : IO unit :=
  fun out => ((out ++ [line])%list, Ok tt).

Notation "x <~ c ;; k" := (io_bind c (fun x => k))
  (at level 61, c at next level, right associativity).
Notation "c ;;; k" := (io_bind c (fun _ => k))
  (at level 61, right associativity).

Fixpoint io_for {X : Type} (body : X -> IO unit) (xs : list X) : IO unit :=
  match xs with
  | [] => io_lift (Ok tt)
  | x :: rest => body x ;;; io_for body rest
  end.

Definition q : string := char dquote.

(** The line [  "src" -> "dest";]. *)
Definition edge_line (src dest : string) : string :=
  "  " ++ q ++ src ++ q ++ " -> " ++ q ++ dest ++ q ++ ";".

(** The line [  "sym" [size=N label="sym\nN bytes"];]. *)
Definition size_line (sym : string) (size : Z) : string :=
  "  " ++ q ++ sym ++ q ++ " [size=" ++ py_str_int size ++ " label=" ++ q
       ++ sym ++ String backslash "n" ++ py_str_int size ++ " bytes" ++ q
       ++ "];".

Definition to_dot (asm out : string) (demangle : Demangler) : IO unit :=
  print "digraph {" ;;;
  io_for (fun e : Edge =>
            let '(src, dest) := e in
            src' <~ io_lift (demangle src) ;;
            dest' <~ io_lift (demangle (Some dest)) ;;
            print (edge_line (encode_symbol src') (encode_symbol dest')))
         (symbol_ref_edges asm) ;;;
  sizes <~ io_lift (symbol_sizes out) ;;
  io_for (fun item : string * Z =>
            let '(sym, size) := item in
            sym' <~ io_lift (demangle (Some sym)) ;;
            print (size_line (encode_symbol sym') size))
         sizes ;;;
  print "}".

(** The lines that [to_dot] prints, starting from an empty output. *)
Definition to_dot_output (asm out : string) (demangle : Demangler)
  : list string * result unit :=
  to_dot asm out demangle [].

(** ** Dominance *)

(** Modelled from the spec: reachability, on which the dominance of the
    graph library is defined.  [reach_in es ok n x y]: there is a walk of at
    most [n] edges of [es] from [x] to [y] all of whose nodes satisfy [ok]. *)
Fixpoint reach_in (es : list (string * string)) (ok : string -> bool)
         (n : nat) (x y : string) : bool :=
  ok x &&
  (String.eqb x y ||
   match n with
   | O => false
   | S n' =>
       existsb (fun e => String.eqb (fst e) x && reach_in es ok n' (snd e) y) es
   end).

(** Modelled from the spec: [b] can be reached from [root].  A walk without
    a repeated node has at most as many edges as the graph. *)
Definition reachable (es : list (string * string)) (root b : string) : bool :=
  reach_in es (fun _ => true) (List.length es) root b.

(** Modelled from the spec: [a] dominates [b], that is, no walk from [root]
    to [b] avoids [a]. *)
Definition dominates (es : list (string * string)) (root a b : string) : bool :=
  negb (reach_in es (fun v => negb (String.eqb v a)) (List.length es) root b).

(** Modelled from the spec: [b] immediately dominates [a], that is, [b]
    dominates [a], [b] is not [a], and no other dominator of [a] is dominated
    by [b]. *)
Definition immediately_dominates (gr : DiGraph) (root b a : string) : bool :=
  dominates (edges gr) root b a && negb (String.eqb b a) &&
  forallb (fun c =>
             negb (dominates (edges gr) root c a
                   && negb (String.eqb c a) && negb (String.eqb c b)
                   && dominates (edges gr) root b c))
          (node_names gr).

(** Modelled from the spec: the immediate dominator of [a], when it has
    one. *)
Definition idom (gr : DiGraph) (root a : string) : option string :=
  find (fun b => immediately_dominates gr root b a) (node_names gr).

(** Modelled from the spec: the items of the mapping for the nodes of the
    list [l], each a node that [start] reaches with its immediate dominator
    when it has one. *)
Definition idom_items (gr : DiGraph) (start : string) (l : list string)
  : list (string * string) :=
  flat_map (fun a =>
              if reachable (edges gr) start a then
                match idom gr start a with
                | Some b => [(a, b)]
                | None => []
                end
              else [])
           l.

(** Modelled from the spec: the function [immediate_dominators] of the graph
    library, which is not part of the source.  It fails with the unknown-root
    error when [start] is not a node; otherwise it gives the mapping from
    every node reachable from [start] that has an immediate dominator to that
    dominator, by the standard definition. *)
Definition immediate_dominators (gr : DiGraph) (start : string)
  : result (list (string * string)) :=
  if has_node start gr then Ok (idom_items gr start (node_names gr))
  else Raise UnknownRootError.

(** [dominator_tree]: the mapping as a graph with an edge from every node to
    its immediate dominator. *)
Definition dominator_tree (gr : DiGraph) (n0 : string) : result DiGraph :=
  doms <- immediate_dominators gr n0 ;;
  Ok (add_edges_from doms empty_graph).

(** The dominator of a node in a mapping, and the node reached from [a] by
    following [k] dominator pointers. *)
Definition dom_of (doms : list (string * string)) (a : string)
  : option string :=
  match find (fun ab => String.eqb (fst ab) a) doms with
  | Some ab => Some (snd ab)
  | None => None
  end.

Fixpoint follow (doms : list (string * string)) (k : nat) (a : string)
  : option string :=
  match k with
  | O => Some a
  | S k' =>
      match dom_of doms a with
      | Some b => follow doms k' b
      | None => None
      end
  end.

(** The graph with edges A->B, A->C, B->D, C->D. *)
Definition diamond : DiGraph :=
  add_edge "C" "D"
    (add_edge "B" "D" (add_edge "A" "C" (add_edge "A" "B" empty_graph))).

(** ** Vocabulary of the statements *)

Fixpoint str_all (f : ascii -> bool) (s : string) : bool :=
  match s with
  | String c s' => f c && str_all f s'
  | EmptyString => true
  end.

(** A non-empty text whose first character is not numeric: where such a text
    begins, the decoder stops reading length prefixes. *)
Definition starts_non_numeric (s : string) : bool :=
  match s with
  | String c _ => negb (isnumeric c)
  | EmptyString => false
  end.

(** A length prefix [ds] for a text of [n] characters: decimal digits with
    value [n]. *)
Definition length_prefix (ds : string) (n : Z) : Prop :=
  ds <> EmptyString /\ str_all isdecimal ds = true /\ py_int 10 ds = Ok n.

(** A length-prefixed component: the prefix [ds] and exactly that many raw
    characters [c], which do not begin with a numeric character. *)
Definition component (dc : string * string) : Prop :=
  length_prefix (fst dc) (Z.of_nat (String.length (snd dc)))
  /\ starts_non_numeric (snd dc) = true.

Fixpoint components_text (comps : list (string * string)) : string :=
  match comps with
  | [] => EmptyString
  | (ds, c) :: rest => ds ++ c ++ components_text rest
  end.

(** The compressed identifier with the components [comps], followed by the
    remainder [rest]. *)
Definition mangled (comps : list (string * string)) (rest : string) : string :=
  "_ZN" ++ components_text comps ++ rest.

(** The three punctuation substitutions, in the order of the source. *)
Definition unescape (s : string) : string :=
  str_replace "$GT$" ">" (str_replace "$LT$" "<" (str_replace "$u20$" " " s)).

(** All but the last two elements. *)
Definition drop_last_two {A : Type} (l : list A) : list A :=
  firstn (List.length l - 2) l.

(** [line] matches the function-start pattern with the name [name]: a
    non-empty run of lowercase hexadecimal digits, a space, the name in angle
    brackets, a colon, then any text. *)
Definition function_start (line name : string) : Prop :=
  exists addr rest,
    line = addr ++ " <" ++ name ++ ">:" ++ rest
    /\ addr <> EmptyString /\ str_all is_lower_hex addr = true
    /\ name <> EmptyString /\ str_all is_word name = true.

(** No line of the text starts a function. *)
Definition no_function_start (asm : string) : bool :=
  forallb (fun line => match new_symbol_match line with
                       | None => true
                       | Some _ => false
                       end)
          (str_split newline asm).

(** A line of the size table that splits into exactly four fields. *)
Definition four_fields (line : string) : bool :=
  (List.length (str_split space line) =? 4)%nat.

(** The rows of the lines of a size table: the symbol and the size literal
    of every line with exactly four fields, in order. *)
Definition rows_of (lines : list string) : list (string * string) :=
  map (fun line => let parts := str_split space line in
                   (nth 3 parts EmptyString, nth 1 parts EmptyString))
      (filter four_fields lines).

Definition table_rows (out : string) : list (string * string) :=
  rows_of (str_split newline out).

(** The size literal of the last row for [sym], [acc] when there is none. *)
Fixpoint last_literal (sym : string) (rows : list (string * string))
         (acc : option string) : option string :=
  match rows with
  | [] => acc
  | (s, lit) :: rest =>
      last_literal sym rest (if String.eqb s sym then Some lit else acc)
  end.

(** A raw edge with both names decoded and escaped. *)
Definition decode_edge (demangle : Demangler) (e : Edge)
  : result (string * string) :=
  src' <- demangle (fst e) ;;
  dest' <- demangle (Some (snd e)) ;;
  Ok (encode_symbol src', encode_symbol dest').

Fixpoint decode_edges (demangle : Demangler) (es : list Edge)
  : result (list (string * string)) :=
  match es with
  | [] => Ok []
  | e :: rest =>
      p <- decode_edge demangle e ;;
      ps <- decode_edges demangle rest ;;
      Ok (p :: ps)
  end.

(** An item of the size table with its name decoded and escaped. *)
Fixpoint decode_sizes (demangle : Demangler) (sizes : SizeDict)
  : result (list (string * Z)) :=
  match sizes with
  | [] => Ok []
  | (sym, size) :: rest =>
      sym' <- demangle (Some sym) ;;
      ps <- decode_sizes demangle rest ;;
      Ok ((encode_symbol sym', size) :: ps)
  end.

(** [walk es x l z]: the edges of [es] lead from [x] to [z]; [l] lists the
    nodes of the walk in order, without the last one. *)
Inductive walk (es : list (string * string))
  : string -> list string -> string -> Prop :=
| walk_nil (x : string) : walk es x [] x
| walk_cons (x y : string) (l : list string) (z : string) :
    In (x, y) es -> walk es y l z -> walk es x (x :: l) z.

Definition reaches (es : list (string * string)) (x y : string) : Prop :=
  exists l, walk es x l y.

(** The nodes of the graph that dominate [a] and are not [a]. *)
Definition strict_dominators (gr : DiGraph) (root a : string) : list string :=
  filter (fun c => dominates (edges gr) root c a && negb (String.eqb c a))
         (node_names gr).

(** The invariant of a graph: a node is listed once, and both ends of every
    edge are nodes. *)
Definition graph_ok (gr : DiGraph) : Prop :=
  NoDup (node_names gr)
  /\ forall u v, In (u, v) (edges gr) ->
                 In u (node_names gr) /\ In v (node_names gr).

(** The raw edges [(A,B), (A,B), (B,C)] and a listing that yields them. *)
Definition abbc_edges : list Edge :=
  [(Some "A", "B"); (Some "A", "B"); (Some "B", "C")].

Definition abbc_asm : string :=
  "0 <A>:" ++ char newline ++ " call <B>" ++ char newline ++ " call <B>"
  ++ char newline ++ "1 <B>:" ++ char newline ++ " call <C>".

(** A size table with a line of another shape and two lines for [f]. *)
Definition nm_sample : string :=
  "0000000000001020 0000000000000010 T f" ++ char newline
  ++ "                 U puts" ++ char newline
  ++ "0000000000001040 000000000000002a T f" ++ char newline.

(** The diamond with a node [X] that the root [A] does not reach. *)
Definition diamond_x : DiGraph := add_edge "X" "B" diamond.

(** ** Vocabulary of the further properties *)

(** Every double quote of [s] comes right after a backslash; [prev] tells
    whether the character before [s] is a backslash. *)
Fixpoint quotes_escaped_from (prev : bool) (s : string) : bool :=
  match s with
  | EmptyString => true
  | String c s' =>
      (if Ascii.eqb c dquote then prev else true)
      && quotes_escaped_from (Ascii.eqb c backslash) s'
  end.

Definition quotes_escaped (s : string) : bool := quotes_escaped_from false s.

(** The number of occurrences of the character [c] in [s]. *)
Fixpoint str_count (c : ascii) (s : string) : nat :=
  match s with
  | EmptyString => 0
  | String x s' => (if Ascii.eqb x c then 1 else 0) + str_count c s'
  end.

(** The current symbol of the parser after the lines [lines], when it was
    [sym] before them. *)
Fixpoint current_symbol (sym : option string) (lines : list string)
  : option string :=
  match lines with
  | [] => sym
  | line :: rest =>
      match new_symbol_match line with
      | Some name => current_symbol (Some name) rest
      | None => current_symbol sym rest
      end
  end.

(** The size of the last item for the name [n] in a list of decoded items,
    [acc] when there is none. *)
Fixpoint last_entry (n : string) (items : list (string * Z)) (acc : option Z)
  : option Z :=
  match items with
  | [] => acc
  | (m, z) :: rest => last_entry n rest (if String.eqb m n then Some z else acc)
  end.

(** The elements of [l] that are not in [seen], each kept where it comes
    first. *)
Fixpoint keep_first (l seen : list string) : list string :=
  match l with
  | [] => []
  | x :: rest =>
      if existsb (String.eqb x) seen then keep_first rest seen
      else x :: keep_first rest (x :: seen)
  end.

(** A listing with a reference before its first function-start line. *)
Definition orphan_asm : string :=
  " jmp <f>" ++ char newline ++ "0 <g>:" ++ char newline ++ " call <f>".

(** * Properties *)

(** ** Strings *)

Lemma str_app_assoc (a b c : string) : (a ++ b) ++ c = a ++ (b ++ c).
Proof. induction a as [|x a IH]; simpl; [reflexivity | now rewrite IH]. Qed.

Lemma str_app_nil_r (a : string) : a ++ EmptyString = a.
Proof. induction a as [|x a IH]; simpl; [reflexivity | now rewrite IH]. Qed.

Lemma str_length_app (a b : string) :
  String.length (a ++ b) = String.length a + String.length b.
Proof. induction a as [|x a IH]; simpl; [reflexivity | now rewrite IH]. Qed.

Lemma str_take_app (a b : string) : str_take (String.length a) (a ++ b) = a.
Proof. induction a as [|x a IH]; simpl; [now destruct b | now rewrite IH]. Qed.

Lemma str_drop_app (a b : string) : str_drop (String.length a) (a ++ b) = b.
Proof. induction a as [|x a IH]; simpl; [reflexivity | exact IH]. Qed.

Lemma str_take_all (n : nat) (s : string) :
  String.length s <= n -> str_take n s = s.
Proof.
  revert n; induction s as [|x s IH]; intros [|n] H; simpl in *; try reflexivity.
  - lia.
  - now rewrite IH by lia.
Qed.

Lemma str_drop_all (n : nat) (s : string) :
  String.length s <= n -> str_drop n s = EmptyString.
Proof.
  revert n; induction s as [|x s IH]; intros [|n] H; simpl in *; try reflexivity.
  - lia.
  - now apply IH; lia.
Qed.

Lemma str_drop_length (n : nat) (s : string) :
  String.length (str_drop n s) = String.length s - n.
Proof.
  revert n; induction s as [|x s IH]; intros [|n]; simpl; try reflexivity.
  apply IH.
Qed.

Lemma slice_bound_nat (len k : nat) : slice_bound len (Z.of_nat k) = k.
Proof.
  unfold slice_bound.
  destruct (Z.ltb_spec (Z.of_nat k) 0); [lia | apply Nat2Z.id].
Qed.

Lemma slice_to_app (a b : string) :
  slice_to (a ++ b) (Z.of_nat (String.length a)) = a.
Proof. unfold slice_to. rewrite slice_bound_nat. apply str_take_app. Qed.

Lemma slice_from_app (a b : string) :
  slice_from (a ++ b) (Z.of_nat (String.length a)) = b.
Proof. unfold slice_from. rewrite slice_bound_nat. apply str_drop_app. Qed.

Lemma startswith_app (p s : string) : startswith (p ++ s) p = true.
Proof.
  induction p as [|x p IH]; simpl; [now destruct s|].
  now rewrite Ascii.eqb_refl, IH.
Qed.

(** ** The decoder's loop *)

Lemma isdecimal_isnumeric (c : ascii) :
  isdecimal c = true -> isnumeric c = true.
Proof. unfold isnumeric. now intros ->. Qed.

(** The scan of a length prefix stops at the first character after the
    digits. *)
Lemma scan_length_digits (ds tail : string) (len i : nat) :
  str_all isdecimal ds = true ->
  starts_non_numeric tail = true ->
  i + String.length ds < len ->
  scan_length (ds ++ tail) len i = Ok (i + String.length ds).
Proof.
  revert i; induction ds as [|d ds IH]; intros i Hds Htail Hlen; simpl in *.
  - destruct tail as [|c tail]; [discriminate|]. simpl in *.
    apply negb_true_iff in Htail. rewrite Htail. simpl. f_equal. lia.
  - apply andb_true_iff in Hds as [Hd Hds].
    rewrite (isdecimal_isnumeric _ Hd).
    destruct (Nat.ltb_spec i len); [|lia]. simpl.
    rewrite IH by (auto; lia). f_equal. lia.
Qed.

(** When the text ends with the digits, the scan indexes past the end. *)
Lemma scan_length_end (ds : string) (len i : nat) :
  str_all isdecimal ds = true ->
  i + String.length ds <= len ->
  scan_length ds len i = Raise IndexError.
Proof.
  revert i; induction ds as [|d ds IH]; intros i Hds Hlen; simpl in *.
  - reflexivity.
  - apply andb_true_iff in Hds as [Hd Hds].
    rewrite (isdecimal_isnumeric _ Hd).
    destruct (Nat.ltb_spec i len); [|lia]. simpl.
    apply IH; auto; lia.
Qed.

Lemma demangle_loop_mono (fuel fuel' : nat) (sym : string) (parts : list string)
      (r : result (list string)) :
  demangle_loop fuel sym parts = Some r -> fuel <= fuel' ->
  demangle_loop fuel' sym parts = Some r.
Proof.
  revert fuel' sym parts; induction fuel as [|fuel IH]; intros fuel' sym parts H Hle.
  - discriminate.
  - destruct fuel' as [|fuel']; [lia|].
    simpl in *. destruct sym as [|c0 sym]; [exact H|].
    destruct (Ascii.eqb c0 "_"); [exact H|].
    destruct (negb (isnumeric c0)); [exact H|].
    destruct (scan_length _ _ _) as [i|e]; [|exact H].
    destruct (py_int _ _) as [n|e]; [|exact H].
    apply IH; [exact H | lia].
Qed.

Lemma scan_length_bounds (rest : string) (len i k : nat) :
  scan_length rest len i = Ok k -> i <= k.
Proof.
  revert i; induction rest as [|c rest IH]; intros i H; simpl in H.
  - discriminate.
  - destruct (isnumeric c && _).
    + apply IH in H. lia.
    + injection H as <-. lia.
Qed.

(** The loop stops whenever its fuel is above the length of the text. *)
Lemma demangle_loop_fuel (fuel : nat) (sym : string) (parts : list string) :
  String.length sym < fuel ->
  exists r, demangle_loop fuel sym parts = Some r.
Proof.
  revert sym parts; induction fuel as [|fuel IH]; intros sym parts H; [lia|].
  simpl. destruct sym as [|c0 sym]; [eauto|].
  destruct (Ascii.eqb c0 "_"); [eauto|].
  destruct (negb (isnumeric c0)); [eauto|].
  destruct (scan_length _ _ _) as [i|e] eqn:Hi; [|eauto].
  destruct (py_int _ _) as [n|e]; [|eauto].
  apply IH.
  apply scan_length_bounds in Hi.
  unfold slice_from at 1. rewrite str_drop_length.
  unfold slice_from. rewrite slice_bound_nat, str_drop_length.
  destruct i as [|i]; [lia|]. simpl in *. lia.
Qed.

Lemma demangle_loop_any_fuel (f f' : nat) (sym : string) (parts : list string)
      (r : result (list string)) :
  demangle_loop f sym parts = Some r -> String.length sym < f' ->
  demangle_loop f' sym parts = Some r.
Proof.
  intros H Hlen.
  destruct (demangle_loop_fuel f' sym parts Hlen) as [r' Hr'].
  destruct (le_ge_dec f f') as [Hle|Hge].
  - now apply demangle_loop_mono with (fuel := f).
  - pose proof (demangle_loop_mono _ f _ _ _ Hr' Hge) as Hf.
    congruence.
Qed.

Lemma demangle_parts_of_loop (f : nat) (sym : string)
      (r : result (list string)) :
  demangle_loop f sym [] = Some r -> demangle_parts sym = r.
Proof.
  intros H. unfold demangle_parts.
  now rewrite (demangle_loop_any_fuel f (S (String.length sym)) sym [] r H) by lia.
Qed.

(** Where the text starts with a character that is not numeric, the loop
    takes all of it as the last part. *)
Lemma demangle_loop_stop (fuel : nat) (rest : string) (parts : list string) :
  starts_non_numeric rest = true ->
  demangle_loop (S fuel) rest parts = Some (Ok (parts ++ [rest])%list).
Proof.
  destruct rest as [|c rest]; simpl; [discriminate|].
  intros ->. now destruct (Ascii.eqb c "_").
Qed.

Lemma isdecimal_not_underscore (c : ascii) :
  isdecimal c = true -> Ascii.eqb c "_" = false.
Proof.
  intros H. destruct (Ascii.eqb_spec c "_") as [->|]; [discriminate|reflexivity].
Qed.

Lemma starts_non_numeric_app (c tail : string) :
  starts_non_numeric c = true -> starts_non_numeric (c ++ tail) = true.
Proof. destruct c; [discriminate | trivial]. Qed.

Lemma starts_non_numeric_length (c : string) :
  starts_non_numeric c = true -> 1 <= String.length c.
Proof. destruct c; [discriminate | simpl; lia]. Qed.

(** One turn of the loop on a length prefix [ds] with value [n], followed by
    a text that does not start with a numeric character. *)
Lemma demangle_loop_prefix (fuel : nat) (ds body : string) (n : Z)
      (parts : list string) :
  length_prefix ds n ->
  starts_non_numeric body = true ->
  demangle_loop (S fuel) (ds ++ body) parts
  = demangle_loop fuel (slice_from body n) (parts ++ [slice_to body n])%list.
Proof.
  intros (Hne & Hds & Hint) Hbody.
  destruct ds as [|d ds]; [congruence|].
  pose proof Hds as Hds'. simpl in Hds'. apply andb_true_iff in Hds' as [Hd Hds'].
  change (demangle_loop (S fuel) (String d ds ++ body) parts)
    with (if Ascii.eqb d "_" then Some (Ok (parts ++ [String d (ds ++ body)])%list)
          else if negb (isnumeric d)
               then Some (Ok (parts ++ [String d (ds ++ body)])%list)
               else match scan_length (ds ++ body)
                                      (String.length (String d ds ++ body)) 1 with
                    | Raise e => Some (Raise e)
                    | Ok i =>
                        match py_int 10 (slice_to (String d ds ++ body) (Z.of_nat i)) with
                        | Raise e => Some (Raise e)
                        | Ok n =>
                            demangle_loop fuel
                              (slice_from (slice_from (String d ds ++ body) (Z.of_nat i)) n)
                              (parts ++ [slice_to (slice_from (String d ds ++ body) (Z.of_nat i)) n])%list
                        end
                    end).
  rewrite (isdecimal_not_underscore _ Hd), (isdecimal_isnumeric _ Hd).
  cbn [negb].
  rewrite scan_length_digits; auto.
  2:{ pose proof (starts_non_numeric_length _ Hbody).
      rewrite str_length_app. simpl. lia. }
  change (1 + String.length ds) with (String.length (String d ds)).
  rewrite slice_to_app, slice_from_app, Hint. reflexivity.
Qed.

Lemma demangle_loop_component (fuel : nat) (dc : string * string)
      (tail : string) (parts : list string) :
  component dc ->
  demangle_loop (S fuel) (fst dc ++ snd dc ++ tail) parts
  = demangle_loop fuel tail (parts ++ [snd dc])%list.
Proof.
  intros [Hp Hc].
  rewrite (demangle_loop_prefix fuel _ _ _ parts Hp (starts_non_numeric_app _ tail Hc)).
  now rewrite slice_to_app, slice_from_app.
Qed.

Lemma demangle_loop_components (comps : list (string * string)) (fuel : nat)
      (tail : string) (parts : list string) :
  Forall component comps ->
  demangle_loop (List.length comps + fuel) (components_text comps ++ tail) parts
  = demangle_loop fuel tail (parts ++ map snd comps)%list.
Proof.
  revert parts; induction comps as [|[ds c] comps IH]; intros parts H.
  - simpl. now rewrite app_nil_r.
  - inversion H as [|? ? Hc Hrest]; subst.
    cbn [components_text List.length Nat.add map].
    rewrite !str_app_assoc.
    rewrite (demangle_loop_component _ (ds, c) _ parts Hc).
    rewrite IH by exact Hrest. now rewrite <- app_assoc.
Qed.

Lemma mangled_body (body : string) :
  startswith ("_ZN" ++ body) "_ZN" = true
  /\ slice_from ("_ZN" ++ body) 3 = body.
Proof. split; [apply startswith_app | reflexivity]. Qed.

Lemma list_slice_to_m2 {A : Type} (l : list A) :
  list_slice_to l (-2) = drop_last_two l.
Proof.
  unfold list_slice_to, drop_last_two, slice_bound. simpl.
  f_equal. lia.
Qed.

(** The parts of a text made of components and a remainder. *)
Lemma demangle_parts_terminated (comps : list (string * string))
      (rest : string) :
  Forall component comps -> starts_non_numeric rest = true ->
  demangle_parts (components_text comps ++ rest)
  = Ok (map snd comps ++ [rest])%list.
Proof.
  intros Hc Hr.
  apply demangle_parts_of_loop with (f := List.length comps + 1).
  rewrite demangle_loop_components by exact Hc.
  now rewrite demangle_loop_stop.
Qed.

Lemma demangle_rust_terminated (comps : list (string * string))
      (rest : string) :
  Forall component comps -> starts_non_numeric rest = true ->
  demangle_rust (mangled comps rest)
  = Ok (unescape (str_join "::"
          (drop_last_two (map snd comps ++ [rest])%list))).
Proof.
  intros Hc Hr. unfold demangle_rust, mangled.
  destruct (mangled_body (components_text comps ++ rest)) as [-> ->].
  rewrite demangle_parts_terminated by assumption.
  cbn [bind]. now rewrite list_slice_to_m2.
Qed.

(** The parts of a text in which a length prefix asks for more characters
    than are left. *)
Lemma demangle_parts_overlong (comps : list (string * string))
      (ds body : string) (n : Z) :
  Forall component comps -> length_prefix ds n ->
  starts_non_numeric body = true ->
  (Z.of_nat (String.length body) <= n)%Z ->
  demangle_parts (components_text comps ++ ds ++ body) = Raise IndexError.
Proof.
  intros Hc Hp Hb Hn.
  apply demangle_parts_of_loop with (f := List.length comps + 2).
  rewrite demangle_loop_components by exact Hc.
  rewrite (demangle_loop_prefix 1 ds body n _ Hp Hb).
  unfold slice_from. rewrite str_drop_all; [reflexivity|].
  unfold slice_bound. destruct (Z.ltb_spec n 0); lia.
Qed.

(** ** The decoder: claims *)

(** C6.  A well-formed compressed identifier, made of the marker,
    length-prefixed components and a remainder that starts with a character
    that is not numeric, is decoded to the components parsed in order with
    the remainder as the last one, the last two of them dropped, the others
    joined with [::] and the three punctuation substitutions applied; the
    identifier [_ZN4core3fmt5Debug9debug_tup17h1234567890abcdefE] is decoded
    to [core::fmt::Debug::debug_tup]. *)
Theorem demangle_rust_well_formed :
  (forall (comps : list (string * string)) (rest : string),
      Forall component comps ->
      starts_non_numeric rest = true ->
      demangle_rust (mangled comps rest)
      = Ok (unescape (str_join "::"
              (drop_last_two (map snd comps ++ [rest])%list))))
  /\ demangle_rust "_ZN4core3fmt5Debug9debug_tup17h1234567890abcdefE"
     = Ok "core::fmt::Debug::debug_tup".
Proof.
  split.
  - intros comps rest Hc Hr. now apply demangle_rust_terminated.
  - reflexivity.
Qed.

Lemma demangle_rust_well_formed_witness :
  demangle_rust
    (mangled [("1", "a"); ("6", "b$LT$c"); ("2", "h0")] "E")
  = Ok "a::b<c".
Proof.
  apply (proj1 demangle_rust_well_formed
               [("1", "a"); ("6", "b$LT$c"); ("2", "h0")] "E").
  - repeat constructor; discriminate.
  - reflexivity.
Defined.

(** C1, as the code has it.  After any components, a length prefix that asks
    for more characters than are left before a character that is not numeric
    stops the decoder with an index error, so that no string is returned;
    and a character that is not numeric where a length prefix could start is
    no error: the rest of the text is the last part and the decoder returns
    the joined name of all parts but the last two. *)
Theorem demangle_rust_malformed (comps : list (string * string)) :
  Forall component comps ->
  (forall (ds body : string) (n : Z),
      length_prefix ds n ->
      starts_non_numeric body = true ->
      (Z.of_nat (String.length body) < n)%Z ->
      demangle_rust ("_ZN" ++ components_text comps ++ ds ++ body)
      = Raise IndexError)
  /\ (forall rest : string,
         starts_non_numeric rest = true ->
         demangle_rust (mangled comps rest)
         = Ok (unescape (str_join "::"
                 (drop_last_two (map snd comps ++ [rest])%list)))).
Proof.
  intros Hc. split.
  - intros ds body n Hp Hb Hn. unfold demangle_rust.
    destruct (mangled_body (components_text comps ++ ds ++ body)) as [-> ->].
    rewrite demangle_parts_overlong with (n := n); auto. lia.
  - intros rest Hr. now apply demangle_rust_terminated.
Qed.

Lemma demangle_rust_malformed_witness :
  demangle_rust "_ZN4core3fmt9ab" = Raise IndexError
  /\ demangle_rust "_ZN4core3fmt*5Debug" = Ok "core".
Proof.
  assert (Hc : Forall component [("4", "core"); ("3", "fmt")])
    by (repeat constructor; discriminate).
  split.
  - apply (proj1 (demangle_rust_malformed _ Hc) "9" "ab" 9%Z).
    + repeat split. discriminate.
    + reflexivity.
    + simpl. lia.
  - apply (proj2 (demangle_rust_malformed _ Hc) "*5Debug"). reflexivity.
Defined.

(** C1 as stated fails: where a length digit is expected after [3fmt] the
    text goes on with [*], and the decoder returns the shortened name
    [core] with no error. *)
Lemma demangle_rust_no_decode_error :
  mangled [("4", "core"); ("3", "fmt")] "*5Debug" = "_ZN4core3fmt*5Debug"
  /\ starts_non_numeric "*5Debug" = true
  /\ demangle_rust "_ZN4core3fmt*5Debug" = Ok "core".
Proof. repeat split. Qed.

(** C9.  An identifier that does not start with the marker is returned as it
    is, and decoding the result again returns it once more. *)
Theorem demangle_rust_pass_through (sym : string) :
  startswith sym "_ZN" = false ->
  demangle_rust sym = Ok sym
  /\ (r <- demangle_rust sym ;; demangle_rust r) = Ok sym.
Proof.
  intros H.
  assert (E : demangle_rust sym = Ok sym) by (unfold demangle_rust; now rewrite H).
  split; [exact E|]. rewrite E. exact E.
Qed.

Lemma demangle_rust_pass_through_witness :
  demangle_rust "main" = Ok "main"
  /\ (r <- demangle_rust "main" ;; demangle_rust r) = Ok "main".
Proof. apply (demangle_rust_pass_through "main"). reflexivity. Defined.

(** ** The disassembly parser *)

Lemma span_app (f : ascii -> bool) (a b : string) :
  str_all f a = true -> span f b = (EmptyString, b) -> span f (a ++ b) = (a, b).
Proof.
  induction a as [|c a IH]; simpl; intros Ha Hb; [exact Hb|].
  apply andb_true_iff in Ha as [-> Ha]. now rewrite IH.
Qed.

Lemma span_spec (f : ascii -> bool) (s a b : string) :
  span f s = (a, b) ->
  s = a ++ b /\ str_all f a = true /\ span f b = (EmptyString, b).
Proof.
  revert a b; induction s as [|c s IH]; simpl; intros a b H.
  - injection H as <- <-. auto.
  - destruct (f c) eqn:Hc.
    + destruct (span f s) as [a' b'] eqn:Hs. injection H as <- <-.
      destruct (IH _ _ eq_refl) as (-> & Ha & Hb). simpl. rewrite Hc. auto.
    + injection H as <- <-. simpl. rewrite Hc. auto.
Qed.

Lemma startswith_split (s p : string) :
  startswith s p = true -> s = p ++ str_drop (String.length p) s.
Proof.
  revert s; induction p as [|x p IH]; intros s H; simpl in *.
  - now destruct s.
  - destruct s as [|y s]; [discriminate|].
    apply andb_true_iff in H as [Hxy H].
    apply Ascii.eqb_eq in Hxy as ->. simpl. f_equal. now apply IH.
Qed.

Lemma str_nonempty_length (s : string) :
  (0 <? String.length s)%nat = true <-> s <> EmptyString.
Proof.
  destruct s; simpl; split; intros H; try easy.
Qed.

(** The matcher of function-start lines finds the name exactly when the line
    has the shape of the pattern. *)
Lemma new_symbol_match_iff (line name : string) :
  new_symbol_match line = Some name <-> function_start line name.
Proof.
  unfold new_symbol_match, function_start. split.
  - destruct (span is_lower_hex line) as [addr r1] eqn:H1.
    destruct ((0 <? String.length addr)%nat && startswith r1 " <") eqn:Ha;
      [|discriminate].
    apply andb_true_iff in Ha as [Ha Hr1].
    destruct (span is_word (str_drop 2 r1)) as [nm r3] eqn:H2.
    destruct ((0 <? String.length nm)%nat && startswith r3 ">:") eqn:Hn;
      [|discriminate].
    apply andb_true_iff in Hn as [Hn Hr3].
    intros [= <-].
    apply span_spec in H1 as (-> & Hhex & _).
    apply span_spec in H2 as (E2 & Hword & _).
    apply startswith_split in Hr1, Hr3. simpl in Hr1, Hr3.
    exists addr, (str_drop 2 r3). repeat split; auto.
    + f_equal. rewrite Hr1 at 1. simpl. do 2 f_equal.
      rewrite E2 at 1. f_equal. exact Hr3.
    + now apply str_nonempty_length.
    + now apply str_nonempty_length.
  - intros (addr & rest & -> & Ha & Hhex & Hn & Hword).
    rewrite (span_app _ addr _ Hhex) by reflexivity.
    apply str_nonempty_length in Ha, Hn. rewrite Ha. simpl.
    rewrite (span_app _ name _ Hword) by reflexivity.
    rewrite Hn. reflexivity.
Qed.

(** C10.  A line that matches the function-start pattern gives no pair of
    its own, whatever follows its colon: the pairs of the lines before it are
    followed at once by the pairs of the lines after it, and these are read
    with the name of the line as the current symbol. *)
Theorem parse_edges_function_start
        (sym : option string) (pre post : list string) (line name : string) :
  function_start line name ->
  parse_lines sym (pre ++ line :: post)
  = (parse_lines sym pre ++ parse_lines (Some name) post)%list
  /\ parse_lines sym [line] = [].
Proof.
  intros H. apply new_symbol_match_iff in H. split.
  - revert sym; induction pre as [|l pre IH]; intros sym; simpl.
    + now rewrite H.
    + destruct (new_symbol_match l); [apply IH|].
      now rewrite IH, app_assoc.
  - simpl. now rewrite H.
Qed.

Lemma parse_edges_function_start_witness :
  parse_lines None ([" jmp <a>"] ++ "1f <main>: <b> <c>" :: [" call <d>"])
  = (parse_lines None [" jmp <a>"]
       ++ parse_lines (Some "main") [" call <d>"])%list
  /\ parse_lines None ["1f <main>: <b> <c>"] = [].
Proof.
  apply (parse_edges_function_start None [" jmp <a>"] [" call <d>"]
                                    "1f <main>: <b> <c>" "main").
  exists "1f", " <b> <c>". repeat split; discriminate.
Defined.

Lemma parse_lines_no_start (sym : option string) (lines : list string) :
  forallb (fun line => match new_symbol_match line with
                       | None => true
                       | Some _ => false
                       end) lines = true ->
  parse_lines sym lines
  = map (fun ref => (sym, ref)) (flat_map symbol_refs lines).
Proof.
  induction lines as [|l lines IH]; simpl; intros H; [reflexivity|].
  apply andb_true_iff in H as [Hl H].
  destruct (new_symbol_match l); [discriminate|].
  now rewrite map_app, IH.
Qed.

(** C3, as the code has it.  When no line of the text matches the
    function-start pattern, the parser gives one pair for every reference of
    the text, in order, each with [None] in the place of the current
    symbol. *)
Theorem parse_edges_no_function_start (asm : string) :
  no_function_start asm = true ->
  parse_edges asm
  = map (fun ref => (None, ref)) (flat_map symbol_refs (str_split newline asm)).
Proof. apply parse_lines_no_start. Qed.

Lemma parse_edges_no_function_start_witness :
  parse_edges " jmp <foo> <bar>" = [(None, "foo"); (None, "bar")].
Proof.
  apply (parse_edges_no_function_start " jmp <foo> <bar>"). reflexivity.
Defined.

(** C3 as stated fails: a text with a reference and no function-start line
    gives a pair. *)
Lemma parse_edges_orphan_reference :
  no_function_start "jmp <foo>" = true
  /\ parse_edges "jmp <foo>" = [(None, "foo")].
Proof. split; reflexivity. Qed.

(** ** The size extractor *)

Lemma dict_get_set_same (k : string) (v : Z) (d : SizeDict) :
  dict_get k (dict_set k v d) = Some v.
Proof.
  induction d as [|[k' v'] d IH]; simpl.
  - now rewrite String.eqb_refl.
  - destruct (String.eqb k' k) eqn:E; simpl; rewrite E; auto.
Qed.

Lemma dict_get_set_other (k k0 : string) (v : Z) (d : SizeDict) :
  k <> k0 -> dict_get k0 (dict_set k v d) = dict_get k0 d.
Proof.
  intros Hne. induction d as [|[k' v'] d IH]; simpl.
  - apply String.eqb_neq in Hne. now rewrite Hne.
  - destruct (String.eqb k' k) eqn:E; simpl.
    + apply String.eqb_eq in E as ->.
      apply String.eqb_neq in Hne. now rewrite Hne.
    + now rewrite IH.
Qed.

Lemma dict_set_keys (k : string) (v : Z) (d : SizeDict) :
  forall x, In x (map fst (dict_set k v d)) <-> x = k \/ In x (map fst d).
Proof.
  intros x. induction d as [|[k' v'] d IH]; simpl.
  - intuition.
  - destruct (String.eqb_spec k' k) as [->|Hne]; simpl; [intuition|].
    rewrite IH. intuition.
Qed.

Lemma dict_set_NoDup (k : string) (v : Z) (d : SizeDict) :
  NoDup (map fst d) -> NoDup (map fst (dict_set k v d)).
Proof.
  induction d as [|[k' v'] d IH]; simpl; intros H.
  - constructor; [easy | constructor].
  - inversion H as [|? ? Hnin Hd]; subst.
    destruct (String.eqb_spec k' k) as [->|Hne]; simpl.
    + now constructor.
    + constructor; [|auto].
      rewrite dict_set_keys. intros [E|Hin]; [congruence|contradiction].
Qed.

Lemma sizes_loop_ok (lines : list string) (d0 : SizeDict) :
  (forall row, In row (rows_of lines) ->
               exists z, py_int 16 (snd row) = Ok z) ->
  NoDup (map fst d0) ->
  exists d,
    sizes_loop lines d0 = Ok d
    /\ NoDup (map fst d)
    /\ forall (sym : string) (acc : option string),
        option_map Ok (dict_get sym d0) = option_map (py_int 16) acc ->
        option_map Ok (dict_get sym d)
        = option_map (py_int 16) (last_literal sym (rows_of lines) acc).
Proof.
  revert d0; induction lines as [|line lines IH]; intros d0 Hrows Hnd.
  - exists d0. simpl. auto.
  - unfold rows_of in *. simpl in *. fold (four_fields line).
    destruct (four_fields line) eqn:F4.
    + simpl in Hrows.
      destruct (Hrows _ (or_introl eq_refl)) as [z Hz]. simpl in Hz.
      rewrite Hz. cbn [bind].
      destruct (IH (dict_set (nth 3 (str_split space line) EmptyString) z d0))
        as (d & Hd & Hnd' & Hget).
      * intros row Hin. apply Hrows. now right.
      * now apply dict_set_NoDup.
      * exists d. repeat split; auto.
        intros sym acc Hacc. simpl. apply Hget.
        destruct (String.eqb_spec (nth 3 (str_split space line) EmptyString) sym) as [->|Hne].
        -- rewrite dict_get_set_same. simpl. now rewrite Hz.
        -- now rewrite dict_get_set_other.
    + now apply IH.
Qed.

Lemma sizes_loop_bad (lines : list string) (d0 : SizeDict) :
  (exists row, In row (rows_of lines)
               /\ py_int 16 (snd row) = Raise ValueError) ->
  sizes_loop lines d0 = Raise ValueError.
Proof.
  revert d0; induction lines as [|line lines IH]; intros d0 (row & Hin & Hbad).
  - destruct Hin.
  - unfold rows_of in *. simpl in *. fold (four_fields line).
    destruct (four_fields line) eqn:F4.
    + destruct (py_int 16 (nth 1 (str_split space line) EmptyString)) as [z|e] eqn:Hz.
      * cbn [bind]. apply IH. destruct Hin as [<-|Hin].
        -- simpl in Hbad. congruence.
        -- eauto.
      * unfold py_int in Hz.
        destruct (int_sign _) as [sg body].
        destruct (int_digits _ _ _ _); [discriminate|]. now injection Hz as <-.
    + apply IH. eauto.
Qed.

(** C4, as the code has it.  When the size field of every four-field line is
    a base-16 literal, the extractor gives a mapping with one entry for
    every symbol of a four-field line and no other, the size of a symbol
    being the value of the literal of its last line; the lines with another
    number of fields count for nothing.  A four-field line whose size field
    is no base-16 literal stops the extractor with a value error.  The line
    [0000000000001020 0000000000000010 T my_symbol] gives [my_symbol: 16]. *)
Theorem symbol_sizes_rows :
  (forall out : string,
      (forall row, In row (table_rows out) ->
                   exists z, py_int 16 (snd row) = Ok z) ->
      exists sizes,
        symbol_sizes out = Ok sizes
        /\ NoDup (map fst sizes)
        /\ forall sym,
            option_map Ok (dict_get sym sizes)
            = option_map (py_int 16) (last_literal sym (table_rows out) None))
  /\ (forall out : string,
         (exists row, In row (table_rows out)
                      /\ py_int 16 (snd row) = Raise ValueError) ->
         symbol_sizes out = Raise ValueError)
  /\ symbol_sizes "0000000000001020 0000000000000010 T my_symbol"
     = Ok [("my_symbol", 16%Z)].
Proof.
  split; [|split].
  - intros out Hrows.
    destruct (sizes_loop_ok (str_split newline out) [] Hrows (NoDup_nil _))
      as (d & Hd & Hnd & Hget).
    exists d. repeat split; auto.
  - intros out. apply sizes_loop_bad.
  - reflexivity.
Qed.

Lemma symbol_sizes_rows_witness :
  exists sizes,
    symbol_sizes nm_sample = Ok sizes
    /\ NoDup (map fst sizes)
    /\ forall sym,
        option_map Ok (dict_get sym sizes)
        = option_map (py_int 16) (last_literal sym (table_rows nm_sample) None).
Proof.
  apply (proj1 symbol_sizes_rows nm_sample).
  intros row [<-|[<-|[]]]; eexists; vm_compute; reflexivity.
Defined.

(** C4 as stated fails: a line of four fields whose size field is not
    hexadecimal stops the extractor with an error, and a signed size field
    gives a negative size. *)
Lemma symbol_sizes_bad_size :
  four_fields "0 zz T foo" = true
  /\ symbol_sizes "0 zz T foo" = Raise ValueError
  /\ symbol_sizes "0 -10 T foo" = Ok [("foo", (-16)%Z)].
Proof. repeat split. Qed.

(** ** Graphs *)

Lemma has_node_In (n : string) (gr : DiGraph) :
  has_node n gr = true <-> In n (node_names gr).
Proof.
  unfold has_node. rewrite existsb_exists. split.
  - intros (x & Hin & E). apply String.eqb_eq in E. now subst.
  - intros H. exists n. split; [exact H | apply String.eqb_refl].
Qed.

Lemma has_edge_In (u v : string) (gr : DiGraph) :
  has_edge u v gr = true <-> In (u, v) (edges gr).
Proof.
  unfold has_edge. rewrite existsb_exists. split.
  - intros ([a b] & Hin & E). simpl in E.
    apply andb_true_iff in E as [E1 E2].
    apply String.eqb_eq in E1, E2. now subst.
  - intros H. exists (u, v). simpl. now rewrite !String.eqb_refl.
Qed.

Lemma add_node_names (n : string) (gr : DiGraph) (x : string) :
  In x (node_names (add_node n gr)) <-> x = n \/ In x (node_names gr).
Proof.
  unfold add_node. destruct (has_node n gr) eqn:E.
  - apply has_node_In in E. split; [auto | intros [->|]; auto].
  - unfold node_names. simpl. rewrite map_app, in_app_iff. simpl. intuition.
Qed.

Lemma add_node_edges (n : string) (gr : DiGraph) :
  edges (add_node n gr) = edges gr.
Proof. unfold add_node. now destruct (has_node n gr). Qed.

Lemma add_node_NoDup (n : string) (gr : DiGraph) :
  NoDup (node_names gr) -> NoDup (node_names (add_node n gr)).
Proof.
  intros H. unfold add_node. destruct (has_node n gr) eqn:E; [exact H|].
  unfold node_names. simpl. rewrite map_app. simpl.
  apply NoDup_app; [exact H | repeat constructor; easy |].
  intros x Hx [<-|[]].
  apply has_node_In in Hx. congruence.
Qed.

Lemma add_edge_names (u v : string) (gr : DiGraph) (x : string) :
  In x (node_names (add_edge u v gr))
  <-> x = u \/ x = v \/ In x (node_names gr).
Proof.
  unfold add_edge.
  destruct (has_edge u v (add_node v (add_node u gr)));
    unfold node_names at 1; simpl; fold (node_names (add_node v (add_node u gr)));
    rewrite !add_node_names; intuition.
Qed.

Lemma add_edge_edges (u v : string) (gr : DiGraph) (e : string * string) :
  In e (edges (add_edge u v gr)) <-> e = (u, v) \/ In e (edges gr).
Proof.
  unfold add_edge.
  destruct (has_edge u v (add_node v (add_node u gr))) eqn:E; simpl.
  - apply has_edge_In in E. rewrite !add_node_edges in *.
    split; [auto | intros [->|]; auto].
  - rewrite !add_node_edges, in_app_iff. simpl. intuition.
Qed.

Lemma add_edge_NoDup_edges (u v : string) (gr : DiGraph) :
  NoDup (edges gr) -> NoDup (edges (add_edge u v gr)).
Proof.
  intros H. unfold add_edge.
  destruct (has_edge u v (add_node v (add_node u gr))) eqn:E; simpl.
  - now rewrite !add_node_edges.
  - rewrite !add_node_edges.
    apply NoDup_app; [exact H | repeat constructor; easy |].
    intros x Hx [<-|[]].
    assert (has_edge u v (add_node v (add_node u gr)) = true); [|congruence].
    apply has_edge_In. now rewrite !add_node_edges.
Qed.

Lemma add_edge_NoDup_names (u v : string) (gr : DiGraph) :
  NoDup (node_names gr) -> NoDup (node_names (add_edge u v gr)).
Proof.
  intros H. unfold add_edge.
  destruct (has_edge u v (add_node v (add_node u gr)));
    unfold node_names at 1; simpl; now do 2 apply add_node_NoDup.
Qed.

Lemma add_edge_ok (u v : string) (gr : DiGraph) :
  graph_ok gr -> graph_ok (add_edge u v gr).
Proof.
  intros [Hnd Hends]. split; [now apply add_edge_NoDup_names|].
  intros a b Hin. apply add_edge_edges in Hin. rewrite !add_edge_names.
  destruct Hin as [[= -> ->]|Hin]; [auto|].
  destruct (Hends _ _ Hin). auto.
Qed.

Lemma empty_graph_ok : graph_ok empty_graph.
Proof. split; [constructor | intros u v []]. Qed.

(** Adding a list of edges one after the other. *)

Lemma add_edges_from_In (des : list (string * string)) (gr : DiGraph)
      (e : string * string) :
  In e (edges (add_edges_from des gr)) <-> In e des \/ In e (edges gr).
Proof.
  revert gr; induction des as [|[u v] des IH]; intros gr; simpl.
  - intuition.
  - unfold add_edges_from in *. simpl. rewrite IH, add_edge_edges. intuition.
Qed.

Lemma add_edges_from_names (des : list (string * string)) (gr : DiGraph)
      (x : string) :
  In x (node_names (add_edges_from des gr))
  <-> (exists e, In e des /\ (x = fst e \/ x = snd e)) \/ In x (node_names gr).
Proof.
  revert gr; induction des as [|[u v] des IH]; intros gr; simpl.
  - split; [auto | intros [(e & [] & _)|]; auto].
  - unfold add_edges_from in *. simpl. rewrite IH, add_edge_names. split.
    + intros [(e & Hin & Hx)|[->|[->|H]]]; eauto.
      * left. exists (u, v). auto.
      * left. exists (u, v). auto.
    + intros [(e & [<-|Hin] & Hx)|H]; simpl in *; [tauto | eauto | auto].
Qed.

Lemma add_edges_from_NoDup_edges (des : list (string * string)) (gr : DiGraph) :
  NoDup (edges gr) -> NoDup (edges (add_edges_from des gr)).
Proof.
  revert gr; induction des as [|[u v] des IH]; intros gr H; [exact H|].
  apply IH. now apply add_edge_NoDup_edges.
Qed.

Lemma add_edges_from_ok (des : list (string * string)) (gr : DiGraph) :
  graph_ok gr -> graph_ok (add_edges_from des gr).
Proof.
  revert gr; induction des as [|[u v] des IH]; intros gr H; [exact H|].
  apply IH. now apply add_edge_ok.
Qed.

(** Edges that are all different are kept as they are. *)
Lemma add_edges_from_exact (des : list (string * string)) (gr : DiGraph) :
  NoDup (edges gr ++ des) ->
  edges (add_edges_from des gr) = (edges gr ++ des)%list.
Proof.
  revert gr; induction des as [|[u v] des IH]; intros gr H; simpl.
  - now rewrite app_nil_r.
  - assert (E : edges (add_edge u v gr) = (edges gr ++ [(u, v)])%list).
    { unfold add_edge.
      destruct (has_edge u v (add_node v (add_node u gr))) eqn:Hu; simpl;
        rewrite !add_node_edges; [|reflexivity].
      apply has_edge_In in Hu. rewrite !add_node_edges in Hu.
      apply NoDup_remove_2 in H. exfalso. apply H.
      apply in_or_app. now left. }
    unfold add_edges_from in *. simpl. rewrite IH; rewrite E, <- app_assoc; auto.
Qed.

(** ** The graph builder and the printed description *)

Lemma bind_ok {A B : Type} (c : result A) (k : A -> result B) (b : B) :
  bind c k = Ok b -> exists a, c = Ok a /\ k a = Ok b.
Proof. destruct c as [a|e]; simpl; [eauto | discriminate]. Qed.

(** The first loop of the builder decodes the raw edges and adds them. *)
Lemma add_edges_decode (demangle : Demangler) (es : list Edge)
      (gr gr' : DiGraph) :
  add_edges demangle es gr = Ok gr' ->
  exists des, decode_edges demangle es = Ok des /\ gr' = add_edges_from des gr.
Proof.
  revert gr; induction es as [|[src dest] es IH]; intros gr H; simpl in *.
  - injection H as <-. now exists [].
  - unfold decode_edge. simpl.
    apply bind_ok in H as (src' & -> & H).
    apply bind_ok in H as (dest' & -> & H). simpl.
    destruct (IH _ H) as (des & -> & ->). simpl. eauto.
Qed.

Lemma decode_edges_In (demangle : Demangler) (es : list Edge)
      (des : list (string * string)) (src : option string) (dest : string) :
  decode_edges demangle es = Ok des -> In (src, dest) es ->
  exists src' dest',
    demangle src = Ok src' /\ demangle (Some dest) = Ok dest'
    /\ In (encode_symbol src', encode_symbol dest') des.
Proof.
  revert des; induction es as [|e es IH]; intros des H Hin; [destruct Hin|].
  simpl in H. apply bind_ok in H as (p & Hp & H).
  apply bind_ok in H as (ps & Hps & H). injection H as <-.
  destruct Hin as [->|Hin].
  - unfold decode_edge in Hp. simpl in Hp.
    apply bind_ok in Hp as (src' & Hs & Hp).
    apply bind_ok in Hp as (dest' & Hd & Hp). injection Hp as <-.
    exists src', dest'. simpl. auto.
  - destruct (IH _ Hps Hin) as (src' & dest' & Hs & Hd & Hi).
    exists src', dest'. simpl. auto.
Qed.

Lemma set_size_names (n : string) (size : Z) (gr : DiGraph) :
  node_names (set_size n size gr) = node_names gr.
Proof.
  unfold node_names, set_size. simpl. rewrite map_map.
  apply map_ext. intros [a b]. simpl. now destruct (String.eqb a n).
Qed.

(** The second loop of the builder leaves the nodes and the edges as they
    are. *)
Lemma add_sizes_decode (demangle : Demangler) (sizes : SizeDict)
      (gr gr' : DiGraph) :
  add_sizes demangle sizes gr = Ok gr' ->
  node_names gr' = node_names gr /\ edges gr' = edges gr
  /\ exists dsz, decode_sizes demangle sizes = Ok dsz.
Proof.
  revert gr; induction sizes as [|[sym size] sizes IH]; intros gr H; simpl in *.
  - injection H as <-. eauto.
  - apply bind_ok in H as (sym' & -> & H). simpl.
    destruct (IH _ H) as (Hn & He & dsz & ->). simpl.
    destruct (has_node (encode_symbol sym') gr).
    + rewrite set_size_names in Hn. eauto.
    + eauto.
Qed.

Lemma to_digraph_parts (asm out : string) (demangle : Demangler)
      (gr : DiGraph) :
  to_digraph asm out demangle = Ok gr ->
  exists des sizes dsz,
    decode_edges demangle (symbol_ref_edges asm) = Ok des
    /\ symbol_sizes out = Ok sizes
    /\ decode_sizes demangle sizes = Ok dsz
    /\ node_names gr = node_names (add_edges_from des empty_graph)
    /\ edges gr = edges (add_edges_from des empty_graph).
Proof.
  unfold to_digraph. intros H.
  apply bind_ok in H as (gr0 & H0 & H).
  apply bind_ok in H as (sizes & Hs & H).
  apply add_edges_decode in H0 as (des & Hdes & ->).
  apply add_sizes_decode in H as (Hn & He & dsz & Hdsz).
  exists des, sizes, dsz. auto.
Qed.

(** A graph that the builder gives has the invariant that the dominance
    analysis asks for. *)
Lemma to_digraph_ok (asm out : string) (demangle : Demangler) (gr : DiGraph) :
  to_digraph asm out demangle = Ok gr -> graph_ok gr.
Proof.
  intros H.
  destruct (to_digraph_parts _ _ _ _ H) as (des & _ & _ & _ & _ & _ & Hn & He).
  unfold graph_ok. rewrite Hn, He.
  exact (add_edges_from_ok des empty_graph empty_graph_ok).
Qed.

(** The lines of the two loops of [to_dot]. *)
Lemma print_edges_lines (demangle : Demangler) (es : list Edge)
      (des : list (string * string)) (lines : list string) :
  decode_edges demangle es = Ok des ->
  io_for (fun e : Edge =>
            let '(src, dest) := e in
            src' <~ io_lift (demangle src) ;;
            dest' <~ io_lift (demangle (Some dest)) ;;
            print (edge_line (encode_symbol src') (encode_symbol dest')))
         es lines
  = ((lines ++ map (fun p => edge_line (fst p) (snd p)) des)%list, Ok tt).
Proof.
  revert des lines; induction es as [|[src dest] es IH]; intros des lines H;
    simpl in *.
  - injection H as <-. simpl. now rewrite app_nil_r.
  - unfold decode_edge in H. simpl in H.
    apply bind_ok in H as (p & Hp & H).
    apply bind_ok in Hp as (src' & Hs & Hp).
    apply bind_ok in Hp as (dest' & Hd & Hp). injection Hp as <-.
    apply bind_ok in H as (ps & Hps & H). injection H as <-.
    unfold io_bind at 1. unfold io_bind at 1, io_lift at 1. rewrite Hs.
    unfold io_bind at 1, io_lift at 1. rewrite Hd.
    unfold print at 1.
    rewrite (IH _ _ Hps). simpl. now rewrite <- app_assoc.
Qed.

Lemma print_sizes_lines (demangle : Demangler) (sizes : SizeDict)
      (dsz : list (string * Z)) (lines : list string) :
  decode_sizes demangle sizes = Ok dsz ->
  io_for (fun item : string * Z =>
            let '(sym, size) := item in
            sym' <~ io_lift (demangle (Some sym)) ;;
            print (size_line (encode_symbol sym') size))
         sizes lines
  = ((lines ++ map (fun p => size_line (fst p) (snd p)) dsz)%list, Ok tt).
Proof.
  revert dsz lines; induction sizes as [|[sym size] sizes IH]; intros dsz lines H;
    simpl in *.
  - injection H as <-. simpl. now rewrite app_nil_r.
  - apply bind_ok in H as (sym' & Hs & H).
    apply bind_ok in H as (ps & Hps & H). injection H as <-.
    unfold io_bind at 1. unfold io_bind at 1, io_lift at 1. rewrite Hs.
    unfold print at 1.
    rewrite (IH _ _ Hps). simpl. now rewrite <- app_assoc.
Qed.

Lemma to_dot_lines (asm out : string) (demangle : Demangler)
      (des : list (string * string)) (sizes : SizeDict)
      (dsz : list (string * Z)) :
  decode_edges demangle (symbol_ref_edges asm) = Ok des ->
  symbol_sizes out = Ok sizes ->
  decode_sizes demangle sizes = Ok dsz ->
  to_dot_output asm out demangle
  = ("digraph {" :: map (fun p => edge_line (fst p) (snd p)) des
       ++ map (fun p => size_line (fst p) (snd p)) dsz ++ ["}"],
     Ok tt)%list.
Proof.
  intros Hdes Hsizes Hdsz. unfold to_dot_output, to_dot.
  unfold io_bind at 1. unfold print at 1. cbn [app].
  unfold io_bind at 1. rewrite (print_edges_lines _ _ _ _ Hdes).
  unfold io_bind at 1. unfold io_lift at 1. rewrite Hsizes.
  unfold io_bind at 1. rewrite (print_sizes_lines _ _ _ _ Hdsz).
  unfold print. cbn [app]. now rewrite <- app_assoc.
Qed.

(** C5, as the code has it.  The built graph has no edge twice: its edges
    are the decoded pairs of the raw stream, each kept once, and the raw
    edges [(A,B), (A,B), (B,C)] give the two edges A->B and B->C.  The
    printed description has one edge line for every raw edge of the stream,
    in the order of the stream, so that a pair referenced again is printed
    again. *)
Theorem to_digraph_simple_graph :
  (forall (asm out : string) (demangle : Demangler) (gr : DiGraph),
      to_digraph asm out demangle = Ok gr ->
      NoDup (edges gr)
      /\ exists des dsz,
          decode_edges demangle (symbol_ref_edges asm) = Ok des
          /\ (forall e, In e (edges gr) <-> In e des)
          /\ to_dot_output asm out demangle
             = ("digraph {" :: map (fun p => edge_line (fst p) (snd p)) des
                  ++ map (fun p => size_line (fst p) (snd p)) dsz ++ ["}"],
                Ok tt)%list)
  /\ add_edges demangle_rust_sym abbc_edges empty_graph
     = Ok (mkDiGraph [("A", None); ("B", None); ("C", None)]
                     [("A", "B"); ("B", "C")]).
Proof.
  split; [|reflexivity].
  intros asm out demangle gr H.
  destruct (to_digraph_parts _ _ _ _ H)
    as (des & sizes & dsz & Hdes & Hs & Hdsz & Hn & He).
  split.
  - rewrite He. apply add_edges_from_NoDup_edges. constructor.
  - exists des, dsz. repeat split.
    + exact Hdes.
    + rewrite He, add_edges_from_In. simpl. tauto.
    + rewrite He, add_edges_from_In. simpl. tauto.
    + now apply to_dot_lines with (sizes := sizes).
Qed.

Lemma to_digraph_simple_graph_witness :
  NoDup [("A", "B"); ("B", "C")]
  /\ exists des dsz,
      decode_edges demangle_rust_sym (symbol_ref_edges abbc_asm) = Ok des
      /\ (forall e, In e [("A", "B"); ("B", "C")] <-> In e des)
      /\ to_dot_output abbc_asm "0 10 T A" demangle_rust_sym
         = ("digraph {" :: map (fun p => edge_line (fst p) (snd p)) des
              ++ map (fun p => size_line (fst p) (snd p)) dsz ++ ["}"],
            Ok tt)%list.
Proof.
  apply (proj1 to_digraph_simple_graph abbc_asm "0 10 T A" demangle_rust_sym
               (mkDiGraph [("A", Some 16%Z); ("B", None); ("C", None)]
                          [("A", "B"); ("B", "C")])).
  reflexivity.
Defined.

(** C5 as stated fails for the printed description: the listing with the
    raw edges [(A,B), (A,B), (B,C)] gives a graph with the edge A->B once,
    and two printed lines for it. *)
Lemma to_dot_repeats_edge_lines :
  symbol_ref_edges abbc_asm = abbc_edges
  /\ to_digraph abbc_asm EmptyString demangle_rust_sym
     = Ok (mkDiGraph [("A", None); ("B", None); ("C", None)]
                     [("A", "B"); ("B", "C")])
  /\ count_occ string_dec
               (fst (to_dot_output abbc_asm EmptyString demangle_rust_sym))
               (edge_line "A" "B") = 2.
Proof. repeat split. Qed.

(** C8.  In a graph that the builder gives, both ends of every edge are
    nodes, and so are the decoded names of both ends of every raw edge,
    whatever the size table holds; the nodes are the ends of the edges and
    no others, so that the size table adds no node: the graph has the nodes
    and edges that the raw edges alone give. *)
Theorem to_digraph_nodes (asm out : string) (demangle : Demangler)
        (gr : DiGraph) :
  to_digraph asm out demangle = Ok gr ->
  (forall u v, In (u, v) (edges gr) ->
               In u (node_names gr) /\ In v (node_names gr))
  /\ (forall src dest, In (src, dest) (symbol_ref_edges asm) ->
        exists src' dest',
          demangle src = Ok src' /\ demangle (Some dest) = Ok dest'
          /\ In (encode_symbol src') (node_names gr)
          /\ In (encode_symbol dest') (node_names gr))
  /\ (forall n, In n (node_names gr) ->
                exists e, In e (edges gr) /\ (n = fst e \/ n = snd e))
  /\ exists gr0,
      add_edges demangle (symbol_ref_edges asm) empty_graph = Ok gr0
      /\ node_names gr = node_names gr0 /\ edges gr = edges gr0.
Proof.
  intros H.
  destruct (to_digraph_parts _ _ _ _ H)
    as (des & sizes & dsz & Hdes & Hs & Hdsz & Hn & He).
  assert (Hnodes : forall e, In e des ->
                  In (fst e) (node_names gr) /\ In (snd e) (node_names gr)).
  { intros e Hin. rewrite Hn, !add_edges_from_names. split; left; exists e; auto. }
  split; [|split; [|split]].
  - intros u v Huv. rewrite He in Huv.
    apply add_edges_from_In in Huv as [Hin|[]].
    apply (Hnodes _ Hin).
  - intros src dest Hin.
    destruct (decode_edges_In _ _ _ _ _ Hdes Hin)
      as (src' & dest' & Hsrc & Hdest & Hi).
    exists src', dest'. destruct (Hnodes _ Hi). auto.
  - intros n Hin. rewrite Hn in Hin.
    apply add_edges_from_names in Hin as [(e & Hin & Hx)|[]].
    exists e. split; [|exact Hx]. rewrite He, add_edges_from_In. now left.
  - unfold to_digraph in H. apply bind_ok in H as (gr0 & H0 & H).
    exists gr0. split; [exact H0|].
    apply add_edges_decode in H0 as (des' & Hdes' & ->).
    assert (des' = des) by congruence. subst. auto.
Qed.

Lemma to_digraph_nodes_witness :
  let gr := mkDiGraph [("A", None); ("B", Some 32%Z); ("C", None)]
                      [("A", "B"); ("B", "C")] in
  (forall u v, In (u, v) (edges gr) ->
               In u (node_names gr) /\ In v (node_names gr))
  /\ (forall src dest, In (src, dest) (symbol_ref_edges abbc_asm) ->
        exists src' dest',
          demangle_rust_sym src = Ok src'
          /\ demangle_rust_sym (Some dest) = Ok dest'
          /\ In (encode_symbol src') (node_names gr)
          /\ In (encode_symbol dest') (node_names gr))
  /\ (forall n, In n (node_names gr) ->
                exists e, In e (edges gr) /\ (n = fst e \/ n = snd e))
  /\ exists gr0,
      add_edges demangle_rust_sym (symbol_ref_edges abbc_asm) empty_graph
      = Ok gr0
      /\ node_names gr = node_names gr0 /\ edges gr = edges gr0.
Proof.
  apply (to_digraph_nodes abbc_asm
           ("0 20 T B" ++ char newline ++ "0 8 T unused") demangle_rust_sym).
  reflexivity.
Defined.

(** ** Walks *)

Section Walks.

Variable es : list (string * string).

Lemma walk_head (x z : string) (l : list string) :
  walk es x l z -> (l = [] /\ x = z) \/ exists l', l = x :: l'.
Proof. intros H. destruct H; eauto. Qed.

Lemma walk_app (x y z : string) (l1 l2 : list string) :
  walk es x l1 y -> walk es y l2 z -> walk es x (l1 ++ l2) z.
Proof.
  intros H1 H2. induction H1 as [x|x y' l y Hin H1 IH]; simpl.
  - exact H2.
  - apply walk_cons with (y := y'); auto.
Qed.

(** A walk can be cut at any of its nodes. *)
Lemma walk_cut (x z v : string) (l1 l2 : list string) :
  walk es x (l1 ++ v :: l2) z -> walk es x l1 v /\ walk es v (v :: l2) z.
Proof.
  revert x; induction l1 as [|a l1 IH]; intros x H; simpl in *.
  - inversion H; subst. split; [constructor | exact H].
  - inversion H as [|? y ? ? Hin Hw]; subst.
    destruct (IH _ Hw) as [H1 H2]. split; [|exact H2].
    now apply walk_cons with (y := y).
Qed.

Lemma walk_sources (x z : string) (l : list string) :
  walk es x l z -> incl l (map fst es).
Proof.
  intros H. induction H as [x|x y l z Hin H IH].
  - intros v [].
  - intros v [<-|Hv]; [|auto].
    change x with (fst (x, y)). now apply in_map.
Qed.

(** A walk can be made to pass no node twice. *)
Lemma walk_simple (x z : string) (l : list string) :
  walk es x l z -> exists l', walk es x l' z /\ NoDup l' /\ incl l' l.
Proof.
  intros H. induction H as [x|x y l z Hin H (l' & Hw & Hnd & Hincl)].
  - exists []. repeat split; [constructor | constructor | easy].
  - destruct (in_dec string_dec x l') as [Hx|Hx].
    + apply in_split in Hx as (l1 & l2 & ->).
      destruct (walk_cut _ _ _ _ _ Hw) as [_ Hw2].
      exists (x :: l2). repeat split.
      * exact Hw2.
      * now apply NoDup_app_remove_l in Hnd.
      * intros v Hv. right. apply Hincl. apply in_or_app. now right.
    + exists (x :: l'). repeat split.
      * now apply walk_cons with (y := y).
      * now constructor.
      * intros v [<-|Hv]; [now left | right; auto].
Qed.

(** ** The reachability test *)

Lemma reach_in_sound (ok : string -> bool) (n : nat) (x y : string) :
  reach_in es ok n x y = true ->
  exists l, walk es x l y /\ forallb ok (l ++ [y]) = true.
Proof.
  revert x; induction n as [|n IH]; intros x H; simpl in H;
    apply andb_true_iff in H as [Hok H]; apply orb_true_iff in H as [H|H].
  - apply String.eqb_eq in H as ->. exists []. simpl. rewrite Hok.
    split; [constructor | reflexivity].
  - discriminate.
  - apply String.eqb_eq in H as ->. exists []. simpl. rewrite Hok.
    split; [constructor | reflexivity].
  - apply existsb_exists in H as ([a b] & Hin & H). simpl in H.
    apply andb_true_iff in H as [Ha H]. apply String.eqb_eq in Ha as ->.
    destruct (IH _ H) as (l & Hw & Hl).
    exists (x :: l). simpl. rewrite Hok, Hl.
    split; [now apply walk_cons with (y := b) | reflexivity].
Qed.

Lemma reach_in_complete (ok : string -> bool) (n : nat) (x y : string)
      (l : list string) :
  walk es x l y -> forallb ok (l ++ [y]) = true -> List.length l <= n ->
  reach_in es ok n x y = true.
Proof.
  intros H. revert n; induction H as [x|x b l z Hin H IH]; intros n Hok Hlen.
  - simpl in Hok. apply andb_true_iff in Hok as [Hok _].
    destruct n; simpl; now rewrite Hok, String.eqb_refl.
  - simpl in Hok, Hlen. apply andb_true_iff in Hok as [Hx Hok].
    destruct n as [|n]; [lia|]. simpl. rewrite Hx. simpl.
    apply orb_true_iff. right. apply existsb_exists.
    exists (x, b). split; [exact Hin|]. simpl.
    rewrite String.eqb_refl. simpl. apply IH; [exact Hok | lia].
Qed.

(** With as many steps as the graph has edges the test is exact. *)
Lemma reach_in_iff (ok : string -> bool) (x y : string) :
  reach_in es ok (List.length es) x y = true
  <-> exists l, walk es x l y /\ forallb ok (l ++ [y]) = true.
Proof.
  split; [apply reach_in_sound|].
  intros (l & Hw & Hok).
  destruct (walk_simple _ _ _ Hw) as (l' & Hw' & Hnd & Hincl).
  apply reach_in_complete with (l := l'); [exact Hw' | |].
  - rewrite forallb_app in *. apply andb_true_iff in Hok as [Hl Hy].
    rewrite Hy, andb_true_r. rewrite forallb_forall in *. auto.
  - rewrite <- (length_map fst es).
    apply NoDup_incl_length; [exact Hnd | exact (walk_sources _ _ _ Hw')].
Qed.

Lemma reachable_iff (root b : string) :
  reachable es root b = true <-> reaches es root b.
Proof.
  unfold reachable, reaches. rewrite reach_in_iff. split.
  - intros (l & Hw & _). now exists l.
  - intros (l & Hw). exists l. split; [exact Hw|].
    apply forallb_forall. reflexivity.
Qed.

(** [a] dominates [b] when [a] lies on every walk from the root to [b]. *)
Lemma dominates_iff (root a b : string) :
  dominates es root a b = true
  <-> forall l, walk es root l b -> In a (l ++ [b]).
Proof.
  unfold dominates. rewrite negb_true_iff. split.
  - intros H l Hw.
    destruct (in_dec string_dec a (l ++ [b])) as [Hin|Hnin]; [exact Hin|].
    assert (reach_in es (fun v => negb (String.eqb v a)) (List.length es) root b = true);
      [|congruence].
    apply reach_in_iff. exists l. split; [exact Hw|].
    apply forallb_forall. intros v Hv. apply negb_true_iff, String.eqb_neq.
    intros ->. contradiction.
  - intros H.
    destruct (reach_in es _ (List.length es) root b) eqn:E; [|reflexivity].
    apply reach_in_iff in E as (l & Hw & Hok).
    specialize (H l Hw). rewrite forallb_forall in Hok.
    apply Hok in H. rewrite String.eqb_refl in H. discriminate.
Qed.

End Walks.

(** ** Dominance *)

Lemma in_split_first (v : string) (l : list string) :
  In v l -> exists l1 l2, l = (l1 ++ v :: l2)%list /\ ~ In v l1.
Proof.
  induction l as [|a l IH]; intros H; [destruct H|].
  destruct (string_dec a v) as [->|Hne].
  - exists [], l. auto.
  - destruct H as [E|H]; [contradiction|].
    destruct (IH H) as (l1 & l2 & -> & Hn).
    exists (a :: l1), l2. split; [reflexivity|].
    intros [E|Hin]; auto.
Qed.

Lemma in_split_last (f : string -> bool) (l : list string) :
  existsb f l = true ->
  exists l1 v l2,
    l = (l1 ++ v :: l2)%list /\ f v = true /\ existsb f l2 = false.
Proof.
  induction l as [|a l IH]; simpl; intros H; [discriminate|].
  destruct (existsb f l) eqn:E.
  - destruct (IH eq_refl) as (l1 & v & l2 & -> & Hv & Hl2).
    exists (a :: l1), v, l2. auto.
  - rewrite orb_false_r in H. exists [], a, l. auto.
Qed.

Section Dominance.

Variable es : list (string * string).
Variable root : string.

Lemma dominates_refl (a : string) : dominates es root a a = true.
Proof.
  apply dominates_iff. intros l _. apply in_or_app. right. now left.
Qed.

Lemma dominates_root (b : string) : dominates es root root b = true.
Proof.
  apply dominates_iff. intros l Hw.
  destruct (walk_head _ _ _ _ Hw) as [[-> ->]|[l' ->]]; now left.
Qed.

(** A strict dominator lies on the walk before its end. *)
Lemma dominates_on_walk (a b : string) (l : list string) :
  dominates es root a b = true -> a <> b -> walk es root l b -> In a l.
Proof.
  intros H Hne Hw.
  apply (proj1 (dominates_iff _ _ _ _) H) in Hw.
  apply in_app_or in Hw as [Hin|[E|[]]]; [exact Hin | congruence].
Qed.

Lemma dominates_trans (a b c : string) :
  dominates es root a b = true -> dominates es root b c = true ->
  dominates es root a c = true.
Proof.
  intros Hab Hbc. destruct (string_dec b c) as [<-|Hne]; [exact Hab|].
  apply dominates_iff. intros l Hw.
  pose proof (dominates_on_walk _ _ _ Hbc Hne Hw) as Hb.
  apply in_split in Hb as (l1 & l2 & ->).
  destruct (walk_cut _ _ _ _ _ _ Hw) as [Hw1 _].
  apply (proj1 (dominates_iff _ _ _ _) Hab) in Hw1.
  apply in_or_app. left. apply in_app_or in Hw1 as [Hin|[<-|[]]].
  - apply in_or_app. now left.
  - apply in_or_app. right. now left.
Qed.

Lemma dominates_reaches (a b : string) :
  reaches es root b -> dominates es root a b = true -> reaches es root a.
Proof.
  intros [l Hw] H. destruct (string_dec a b) as [->|Hne]; [now exists l|].
  pose proof (dominates_on_walk _ _ _ H Hne Hw) as Ha.
  apply in_split in Ha as (l1 & l2 & ->).
  destruct (walk_cut _ _ _ _ _ _ Hw) as [Hw1 _]. now exists l1.
Qed.

Lemma dominates_antisym (a b : string) :
  reaches es root b ->
  dominates es root a b = true -> dominates es root b a = true -> a = b.
Proof.
  intros [l Hw] Hab Hba.
  destruct (string_dec a b) as [E|Hne]; [exact E|exfalso].
  pose proof (dominates_on_walk _ _ _ Hab Hne Hw) as Ha.
  apply in_split_first in Ha as (l1 & l2 & -> & Hfirst).
  destruct (walk_cut _ _ _ _ _ _ Hw) as [Hw1 _].
  assert (Hb : In b l1)
    by (apply (dominates_on_walk b a); auto).
  apply in_split in Hb as (l3 & l4 & ->).
  destruct (walk_cut _ _ _ _ _ _ Hw1) as [Hw3 _].
  pose proof (dominates_on_walk _ _ _ Hab Hne Hw3) as Ha.
  apply Hfirst. apply in_or_app. now left.
Qed.

(** A walk to [a] that avoids [b], when [b] does not dominate [a]. *)
Lemma not_dominates_walk (b a : string) :
  dominates es root b a = false ->
  exists l, walk es root l a /\ ~ In b (l ++ [a]).
Proof.
  unfold dominates. rewrite negb_false_iff. intros H.
  apply reach_in_iff in H as (l & Hw & Hok).
  exists l. split; [exact Hw|]. intros Hin.
  rewrite forallb_forall in Hok. apply Hok in Hin.
  rewrite String.eqb_refl in Hin. discriminate.
Qed.

(** The last part of the chain argument: a walk from the root to [a] that
    avoids [b], then a walk from [a] to [c] that avoids [b], against [b]
    dominating [c]. *)
Lemma dominates_bypass (a b c : string) (l2 : list string) :
  dominates es root b c = true -> dominates es root b a = false -> b <> c ->
  walk es a (a :: l2) c -> ~ In b l2 -> False.
Proof.
  intros Hbc Hba Hne Hw2 Hl2.
  destruct (not_dominates_walk _ _ Hba) as (l1 & Hw1 & Hl1).
  pose proof (walk_app _ _ _ _ _ _ Hw1 Hw2) as Hw.
  pose proof (dominates_on_walk _ _ _ Hbc Hne Hw) as Hb.
  apply in_app_or in Hb as [Hb|[E|Hb]].
  - apply Hl1. apply in_or_app. now left.
  - apply Hl1. apply in_or_app. right. now left.
  - contradiction.
Qed.

(** The dominators of a node are a chain. *)
Lemma dominates_chain (a b c : string) :
  reaches es root c ->
  dominates es root a c = true -> dominates es root b c = true ->
  dominates es root a b = true \/ dominates es root b a = true.
Proof.
  intros [l Hw] Hac Hbc.
  destruct (dominates es root a b) eqn:Hab; [now left|].
  destruct (dominates es root b a) eqn:Hba; [now right|exfalso].
  destruct (string_dec a c) as [->|Hnac]; [congruence|].
  destruct (string_dec b c) as [->|Hnbc]; [congruence|].
  pose proof (dominates_on_walk _ _ _ Hac Hnac Hw) as Ha.
  assert (Hex : existsb (fun v => String.eqb v a || String.eqb v b) l = true).
  { apply existsb_exists. exists a. split; [exact Ha|].
    now rewrite String.eqb_refl. }
  apply in_split_last in Hex as (l1 & v & l2 & -> & Hv & Hl2).
  destruct (walk_cut _ _ _ _ _ _ Hw) as [_ Hw2].
  assert (Hno : forall w, In w l2 -> w <> a /\ w <> b).
  { intros w Hin. split; intros ->.
    - assert (existsb (fun v => String.eqb v a || String.eqb v b) l2 = true);
        [|congruence].
      apply existsb_exists. exists a. now rewrite String.eqb_refl.
    - assert (existsb (fun v => String.eqb v a || String.eqb v b) l2 = true);
        [|congruence].
      apply existsb_exists. exists b.
      now rewrite String.eqb_refl, orb_true_r. }
  apply orb_true_iff in Hv as [E|E]; apply String.eqb_eq in E as ->.
  - apply (dominates_bypass a b c l2); auto.
    intros Hin. now destruct (Hno _ Hin).
  - apply (dominates_bypass b a c l2); auto.
    intros Hin. now destruct (Hno _ Hin).
Qed.

(** Among the dominators of a node listed in [cands] there is one that
    all the others dominate. *)
Lemma closest_dominator (c : string) (cands : list string) :
  reaches es root c -> cands <> [] ->
  (forall a, In a cands -> dominates es root a c = true) ->
  exists b, In b cands /\ forall a, In a cands -> dominates es root a b = true.
Proof.
  intros Hc. induction cands as [|x cands IH]; intros Hne Hall; [congruence|].
  destruct cands as [|y cands].
  - exists x. split; [now left|]. intros a [<-|[]]. apply dominates_refl.
  - destruct IH as (b & Hb & Hmin); [discriminate | intros a Ha; apply Hall; now right|].
    destruct (dominates_chain x b c Hc) as [Hxb|Hbx].
    + apply Hall. now left.
    + apply Hall. now right.
    + exists b. split; [now right|]. intros a [<-|Ha]; auto.
    + exists x. split; [now left|]. intros a [<-|Ha].
      * apply dominates_refl.
      * apply dominates_trans with (b := b); auto.
Qed.

End Dominance.

(** ** The immediate dominators *)

Lemma filter_length_lt {A : Type} (f g : A -> bool) (l : list A) :
  (forall x, In x l -> f x = true -> g x = true) ->
  (exists x, In x l /\ f x = false /\ g x = true) ->
  List.length (filter f l) < List.length (filter g l).
Proof.
  assert (Hle : forall l', (forall x, In x l' -> f x = true -> g x = true) ->
                           List.length (filter f l') <= List.length (filter g l')).
  { induction l' as [|a l' IH]; intros H; simpl; [lia|].
    assert (IH' : List.length (filter f l') <= List.length (filter g l'))
      by (apply IH; intros x Hx; apply H; now right).
    destruct (f a) eqn:Fa.
    - rewrite (H a (or_introl eq_refl) Fa). simpl. lia.
    - destruct (g a); simpl; lia. }
  induction l as [|a l IH]; intros H (x & Hin & Fx & Gx); [destruct Hin|].
  simpl. destruct Hin as [->|Hin].
  - rewrite Fx, Gx. simpl.
    assert (List.length (filter f l) <= List.length (filter g l))
      by (apply Hle; intros y Hy; apply H; now right).
    lia.
  - assert (List.length (filter f l) < List.length (filter g l)).
    { apply IH; [intros y Hy; apply H; now right | eauto]. }
    destruct (f a) eqn:Fa.
    + rewrite (H a (or_introl eq_refl) Fa). simpl. lia.
    + destruct (g a); simpl; lia.
Qed.

Lemma dom_of_In (items : list (string * string)) (a b : string) :
  dom_of items a = Some b -> In (a, b) items.
Proof.
  unfold dom_of. destruct (find _ items) as [[x y]|] eqn:E; [|discriminate].
  intros [= <-]. apply find_some in E as [Hin Hx]. simpl in Hx.
  apply String.eqb_eq in Hx as ->. exact Hin.
Qed.

Section ImmediateDominators.

Variable gr : DiGraph.
Variable root : string.

Lemma idom_items_In (l : list string) (a b : string) :
  In (a, b) (idom_items gr root l)
  <-> In a l /\ reachable (edges gr) root a = true /\ idom gr root a = Some b.
Proof.
  unfold idom_items. rewrite in_flat_map. split.
  - intros (x & Hx & Hin).
    destruct (reachable (edges gr) root x) eqn:R; [|destruct Hin].
    destruct (idom gr root x) as [y|] eqn:I; [|destruct Hin].
    destruct Hin as [[= <- <-]|[]]. auto.
  - intros (Hin & R & I). exists a. split; [exact Hin|].
    rewrite R, I. now left.
Qed.

Lemma idom_items_keys (l : list string) :
  NoDup l -> NoDup (map fst (idom_items gr root l)).
Proof.
  induction l as [|x l IH]; intros H; [constructor|].
  inversion H as [|? ? Hx Hl]; subst.
  change (idom_items gr root (x :: l))
    with ((if reachable (edges gr) root x then
             match idom gr root x with
             | Some b => [(x, b)]
             | None => []
             end
           else []) ++ idom_items gr root l)%list.
  destruct (reachable (edges gr) root x); [|now apply IH].
  destruct (idom gr root x) as [b|]; [|now apply IH].
  simpl. constructor; [|now apply IH].
  intros Hin. apply in_map_iff in Hin as ([a' b'] & E & Hin). simpl in E. subst a'.
  apply idom_items_In in Hin as [Hin _]. contradiction.
Qed.

Lemma dom_of_idom_items (l : list string) (a : string) :
  In a l -> reachable (edges gr) root a = true ->
  dom_of (idom_items gr root l) a = idom gr root a.
Proof.
  intros Hin R.
  destruct (dom_of (idom_items gr root l) a) as [b|] eqn:E.
  - apply dom_of_In, idom_items_In in E as (_ & _ & ->). reflexivity.
  - destruct (idom gr root a) as [b|] eqn:I; [|reflexivity].
    assert (Hab : In (a, b) (idom_items gr root l))
      by (apply idom_items_In; auto).
    unfold dom_of in E.
    destruct (find (fun ab => String.eqb (fst ab) a) (idom_items gr root l)) eqn:F;
      [discriminate|].
    apply (find_none _ _ F) in Hab. simpl in Hab.
    rewrite String.eqb_refl in Hab. discriminate.
Qed.

Hypothesis gr_ok : graph_ok gr.
Hypothesis root_node : In root (node_names gr).

Lemma walk_nodes (x z : string) (l : list string) :
  walk (edges gr) x l z -> In x (node_names gr) ->
  forall v, In v (l ++ [z]) -> In v (node_names gr).
Proof.
  intros H. induction H as [x|x y l z Hin H IH]; intros Hx v Hv.
  - destruct Hv as [<-|[]]. exact Hx.
  - destruct Hv as [<-|Hv]; [exact Hx|].
    apply IH; [|exact Hv]. now apply (proj2 gr_ok x y).
Qed.

Lemma reaches_node (a : string) :
  reaches (edges gr) root a -> In a (node_names gr).
Proof.
  intros [l Hw]. apply (walk_nodes _ _ _ Hw root_node).
  apply in_or_app. right. now left.
Qed.

(** What an immediate dominator is: a strict dominator that every strict
    dominator dominates. *)
Lemma idom_spec (a b : string) :
  reaches (edges gr) root a -> idom gr root a = Some b ->
  In b (node_names gr) /\ dominates (edges gr) root b a = true /\ b <> a
  /\ forall c, dominates (edges gr) root c a = true -> c <> a ->
               dominates (edges gr) root c b = true.
Proof.
  intros Ha H. unfold idom in H. apply find_some in H as [Hb H].
  unfold immediately_dominates in H.
  apply andb_true_iff in H as [H Hall]. apply andb_true_iff in H as [Hba Hne].
  apply negb_true_iff, String.eqb_neq in Hne.
  repeat split; auto.
  intros c Hca Hnca.
  destruct (string_dec c b) as [->|Hncb]; [apply dominates_refl|].
  assert (Hc : In c (node_names gr))
    by (apply reaches_node; now apply dominates_reaches with (b := a)).
  rewrite forallb_forall in Hall. specialize (Hall c Hc).
  apply negb_true_iff in Hall.
  apply String.eqb_neq in Hnca, Hncb.
  rewrite Hca, Hnca, Hncb in Hall. simpl in Hall.
  destruct (dominates_chain _ _ c b a Ha Hca Hba) as [E|E]; [exact E|congruence].
Qed.

(** Every node that the root reaches, the root apart, has an immediate
    dominator. *)
Lemma idom_exists (a : string) :
  reaches (edges gr) root a -> a <> root ->
  exists b, idom gr root a = Some b.
Proof.
  intros Ha Hne.
  assert (Hsd : forall c, In c (strict_dominators gr root a)
                          <-> In c (node_names gr)
                              /\ dominates (edges gr) root c a = true
                              /\ c <> a).
  { intros c. unfold strict_dominators. rewrite filter_In, andb_true_iff.
    rewrite negb_true_iff, String.eqb_neq. tauto. }
  destruct (closest_dominator (edges gr) root a (strict_dominators gr root a))
    as (b & Hb & Hmin); [exact Ha | | |].
  - intros E.
    assert (Hr : In root (strict_dominators gr root a)).
    { apply Hsd. repeat split; auto. apply dominates_root. }
    rewrite E in Hr. destruct Hr.
  - intros c Hc. now apply Hsd in Hc.
  - apply Hsd in Hb as (Hbn & Hba & Hnba).
    assert (Hi : immediately_dominates gr root b a = true).
    { unfold immediately_dominates. rewrite Hba.
      apply String.eqb_neq in Hnba. rewrite Hnba. simpl.
      apply forallb_forall. intros c Hc. apply negb_true_iff.
      destruct (dominates (edges gr) root c a) eqn:Hca; [|reflexivity].
      destruct (String.eqb_spec c a) as [|Hnca]; [reflexivity|].
      destruct (String.eqb_spec c b) as [|Hncb]; [reflexivity|]. simpl.
      destruct (dominates (edges gr) root b c) eqn:Hbc; [|reflexivity].
      exfalso. apply Hncb.
      apply (dominates_antisym (edges gr) root c b).
      - now apply dominates_reaches with (b := a).
      - apply Hmin. apply Hsd. auto.
      - exact Hbc. }
    unfold idom. destruct (find _ (node_names gr)) as [b'|] eqn:F; [eauto|].
    apply (find_none _ _ F) in Hbn. congruence.
Qed.

(** The dominator of a node has fewer strict dominators than the node. *)
Lemma idom_decreases (a b : string) :
  reaches (edges gr) root a -> idom gr root a = Some b ->
  List.length (strict_dominators gr root b)
  < List.length (strict_dominators gr root a).
Proof.
  intros Ha H. destruct (idom_spec _ _ Ha H) as (Hbn & Hba & Hne & _).
  assert (Hb : reaches (edges gr) root b)
    by now apply dominates_reaches with (b := a).
  apply filter_length_lt.
  - intros c _ Hc. apply andb_true_iff in Hc as [Hcb Hncb].
    rewrite (dominates_trans _ _ _ _ _ Hcb Hba). simpl.
    apply negb_true_iff, String.eqb_neq. intros ->.
    apply Hne. symmetry. now apply (dominates_antisym (edges gr) root a b).
  - exists b. repeat split; [exact Hbn | |].
    + now rewrite String.eqb_refl, andb_false_r.
    + rewrite Hba. apply String.eqb_neq in Hne. now rewrite Hne.
Qed.

Lemma doms_domain (a : string) :
  In a (map fst (idom_items gr root (node_names gr)))
  <-> reaches (edges gr) root a /\ a <> root.
Proof.
  split.
  - intros Hin. apply in_map_iff in Hin as ([a' b] & E & Hin). simpl in E. subst a'.
    apply idom_items_In in Hin as (_ & R & I). apply reachable_iff in R.
    split; [exact R|]. intros ->.
    destruct (idom_spec _ _ R I) as (_ & Hd & Hne & _).
    exact (dominates_on_walk _ _ _ _ [] Hd Hne (walk_nil _ _)).
  - intros [R Hne]. destruct (idom_exists _ R Hne) as [b I].
    apply in_map_iff. exists (a, b). split; [reflexivity|].
    apply idom_items_In. repeat split; auto.
    + now apply reaches_node.
    + now apply reachable_iff.
Qed.

Lemma doms_step (a b : string) :
  dom_of (idom_items gr root (node_names gr)) a = Some b ->
  reaches (edges gr) root a /\ idom gr root a = Some b
  /\ reaches (edges gr) root b.
Proof.
  intros H. apply dom_of_In, idom_items_In in H as (_ & R & I).
  apply reachable_iff in R. repeat split; auto.
  destruct (idom_spec _ _ R I) as (_ & Hd & _).
  now apply dominates_reaches with (b := a).
Qed.

Lemma follow_decreases (k : nat) (a c : string) :
  follow (idom_items gr root (node_names gr)) (S k) a = Some c ->
  List.length (strict_dominators gr root c)
  < List.length (strict_dominators gr root a).
Proof.
  revert a; induction k as [|k IH]; intros a H; simpl in H;
    destruct (dom_of (idom_items gr root (node_names gr)) a) as [b|] eqn:E;
    try discriminate;
    destruct (doms_step _ _ E) as (Ra & I & Rb);
    pose proof (idom_decreases _ _ Ra I) as Hlt.
  - now injection H as <-.
  - specialize (IH b H). lia.
Qed.

Lemma follow_to_root (n : nat) (a : string) :
  List.length (strict_dominators gr root a) < n ->
  reaches (edges gr) root a -> a <> root ->
  exists k, follow (idom_items gr root (node_names gr)) k a = Some root.
Proof.
  revert a; induction n as [|n IH]; intros a Hn Ra Hne; [lia|].
  destruct (idom_exists _ Ra Hne) as [b I].
  assert (E : dom_of (idom_items gr root (node_names gr)) a = Some b).
  { rewrite dom_of_idom_items; auto.
    - now apply reaches_node.
    - now apply reachable_iff. }
  destruct (string_dec b root) as [->|Hb].
  - exists 1. simpl. now rewrite E.
  - destruct (doms_step _ _ E) as (_ & _ & Rb).
    pose proof (idom_decreases _ _ Ra I) as Hlt.
    destruct (IH b) as [k Hk]; [lia | exact Rb | exact Hb|].
    exists (S k). simpl. now rewrite E.
Qed.

End ImmediateDominators.

(** ** The dominance analysis: claims *)

Lemma idom_dominates (gr : DiGraph) (root a b : string) :
  idom gr root a = Some b -> dominates (edges gr) root b a = true.
Proof.
  unfold idom, immediately_dominates. intros H.
  apply find_some in H as [_ H].
  apply andb_true_iff in H as [H _]. now apply andb_true_iff in H as [H _].
Qed.

Lemma idom_items_reach (gr : DiGraph) (root a b : string) :
  In (a, b) (idom_items gr root (node_names gr)) ->
  reaches (edges gr) root a /\ reaches (edges gr) root b.
Proof.
  intros H. apply idom_items_In in H as (_ & R & I).
  apply reachable_iff in R. split; [exact R|].
  apply dominates_reaches with (b := a); [exact R|].
  now apply idom_dominates.
Qed.

(** C2.  For a graph and a root among its nodes, the immediate-dominator
    mapping has one entry for every node that the root reaches, the root
    apart, and no other; the entry of a node is a strict dominator of the
    node that every strict dominator of the node dominates; following the
    entries from a node of the mapping leads to the root, and never back to
    the node; the tree that the analysis returns has the entries as its
    edges.  For the edges A->B, A->C, B->D, C->D and the root A the mapping
    is B:A, C:A, D:A. *)
Theorem dominator_tree_is_tree :
  (forall (gr : DiGraph) (n0 : string),
      graph_ok gr -> In n0 (node_names gr) ->
      exists doms,
        immediate_dominators gr n0 = Ok doms
        /\ (exists tr, dominator_tree gr n0 = Ok tr /\ edges tr = doms)
        /\ NoDup (map fst doms)
        /\ (forall a, In a (map fst doms)
                      <-> reaches (edges gr) n0 a /\ a <> n0)
        /\ (forall a b, In (a, b) doms ->
              (forall l, walk (edges gr) n0 l a -> In b l)
              /\ forall c, c <> a ->
                   (forall l, walk (edges gr) n0 l a -> In c l) ->
                   forall l, walk (edges gr) n0 l b -> In c (l ++ [b]))
        /\ (forall a, In a (map fst doms) ->
                      exists k, follow doms k a = Some n0)
        /\ (forall a k, follow doms (S k) a <> Some a))
  /\ immediate_dominators diamond "A" = Ok [("B", "A"); ("C", "A"); ("D", "A")].
Proof.
  split; [|reflexivity].
  intros gr n0 Hok Hroot.
  exists (idom_items gr n0 (node_names gr)).
  assert (Hkeys : NoDup (map fst (idom_items gr n0 (node_names gr))))
    by (apply idom_items_keys, Hok).
  split; [|split; [|split; [|split; [|split; [|split]]]]].
  - unfold immediate_dominators.
    now rewrite (proj2 (has_node_In n0 gr) Hroot).
  - exists (add_edges_from (idom_items gr n0 (node_names gr)) empty_graph). split.
    + unfold dominator_tree, immediate_dominators.
      now rewrite (proj2 (has_node_In n0 gr) Hroot).
    + apply add_edges_from_exact. simpl. now apply NoDup_map_inv in Hkeys.
  - exact Hkeys.
  - intros a. now apply doms_domain.
  - intros a b Hin. apply idom_items_In in Hin as (_ & R & I).
    apply reachable_iff in R.
    destruct (idom_spec gr n0 Hok Hroot a b R I) as (_ & Hba & Hne & Hmin).
    split.
    + intros l Hw. now apply (dominates_on_walk (edges gr) n0 b a).
    + intros c Hc Hca. apply dominates_iff. apply Hmin; [|exact Hc].
      apply dominates_iff. intros l Hw. apply in_or_app. left. auto.
  - intros a Ha. apply (doms_domain gr n0 Hok Hroot) in Ha as [R Hne].
    apply (follow_to_root gr n0 Hok Hroot
             (S (List.length (strict_dominators gr n0 a)))); auto.
  - intros a k H.
    pose proof (follow_decreases gr n0 Hok Hroot k a a H). lia.
Qed.

Lemma diamond_ok : graph_ok diamond.
Proof. unfold diamond. repeat apply add_edge_ok. apply empty_graph_ok. Qed.

Lemma dominator_tree_is_tree_witness :
  exists doms,
    immediate_dominators diamond "A" = Ok doms
    /\ (exists tr, dominator_tree diamond "A" = Ok tr /\ edges tr = doms)
    /\ NoDup (map fst doms)
    /\ (forall a, In a (map fst doms)
                  <-> reaches (edges diamond) "A" a /\ a <> "A")
    /\ (forall a b, In (a, b) doms ->
          (forall l, walk (edges diamond) "A" l a -> In b l)
          /\ forall c, c <> a ->
               (forall l, walk (edges diamond) "A" l a -> In c l) ->
               forall l, walk (edges diamond) "A" l b -> In c (l ++ [b]))
    /\ (forall a, In a (map fst doms) -> exists k, follow doms k a = Some "A")
    /\ (forall a k, follow doms (S k) a <> Some a).
Proof.
  apply (proj1 dominator_tree_is_tree diamond "A").
  - exact diamond_ok.
  - simpl. auto.
Defined.

(** C7.  The analysis fails exactly when the root is not a node of the
    graph, and then with the unknown-root error; when the root is a node it
    gives a tree, and every node of the tree is reached from the root, so
    that the nodes that the root does not reach are left out. *)
Theorem dominator_tree_unknown_root (gr : DiGraph) (n0 : string) :
  (forall e, dominator_tree gr n0 = Raise e
             <-> e = UnknownRootError /\ ~ In n0 (node_names gr))
  /\ (In n0 (node_names gr) ->
      exists tr,
        dominator_tree gr n0 = Ok tr
        /\ forall x, In x (node_names tr) -> reaches (edges gr) n0 x).
Proof.
  unfold dominator_tree, immediate_dominators.
  destruct (has_node n0 gr) eqn:E.
  - apply has_node_In in E. split.
    + intros e. simpl. split; [discriminate | intros [_ H]; contradiction].
    + intros _. eexists. split; [reflexivity|].
      intros x Hx. apply add_edges_from_names in Hx as [([a b] & Hin & Hx)|[]].
      destruct (idom_items_reach _ _ _ _ Hin) as [Ra Rb].
      now destruct Hx as [->| ->].
  - assert (Hn : ~ In n0 (node_names gr)).
    { intros H. apply has_node_In in H. congruence. }
    split.
    + intros e. simpl. split; [intros [= <-]; auto | intros [-> _]; reflexivity].
    + intros H. contradiction.
Qed.

Lemma dominator_tree_unknown_root_witness :
  exists tr,
    dominator_tree diamond_x "A" = Ok tr
    /\ forall x, In x (node_names tr) -> reaches (edges diamond_x) "A" x.
Proof.
  apply (proj2 (dominator_tree_unknown_root diamond_x "A")).
  simpl. auto.
Defined.

(** * Further properties *)

(** ** The escaping of quotes *)

(** [encode_symbol], character by character. *)
Lemma encode_symbol_cons (c : ascii) (s : string) :
  encode_symbol (String c s)
  = if Ascii.eqb c dquote
    then String backslash (String dquote (encode_symbol s))
    else String c (encode_symbol s).
Proof.
  unfold encode_symbol, str_replace. cbn [replace_from startswith char].
  rewrite (Ascii.eqb_sym dquote c).
  destruct (Ascii.eqb c dquote) eqn:E; [|reflexivity].
  apply Ascii.eqb_eq in E as ->. reflexivity.
Qed.

Lemma encode_symbol_nil : encode_symbol EmptyString = EmptyString.
Proof. reflexivity. Qed.

(** An encoded name does not begin with a double quote. *)
Lemma encode_symbol_head (s t : string) :
  encode_symbol s <> String dquote t.
Proof.
  destruct s as [|c s]; [discriminate|].
  rewrite encode_symbol_cons.
  destruct (Ascii.eqb c dquote) eqn:E; [discriminate|].
  intros [= ->]. now rewrite Ascii.eqb_refl in E.
Qed.

Lemma encode_symbol_inj (a b : string) :
  encode_symbol a = encode_symbol b -> a = b.
Proof.
  revert b; induction a as [|x a IH]; intros [|y b] H.
  - reflexivity.
  - rewrite encode_symbol_cons in H. now destruct (Ascii.eqb y dquote).
  - rewrite encode_symbol_cons in H. now destruct (Ascii.eqb x dquote).
  - rewrite !encode_symbol_cons in H.
    destruct (Ascii.eqb x dquote) eqn:Ex, (Ascii.eqb y dquote) eqn:Ey.
    + apply Ascii.eqb_eq in Ex, Ey. subst. injection H as H. f_equal. auto.
    + injection H as <- H. symmetry in H. now apply encode_symbol_head in H.
    + injection H as -> H. now apply encode_symbol_head in H.
    + injection H as <- H. f_equal. auto.
Qed.

Lemma encode_symbol_escaped (prev : bool) (s : string) :
  quotes_escaped_from prev (encode_symbol s) = true.
Proof.
  revert prev; induction s as [|c s IH]; intros prev; [reflexivity|].
  rewrite encode_symbol_cons. destruct (Ascii.eqb c dquote) eqn:E.
  - cbn [quotes_escaped_from]. rewrite Ascii.eqb_refl.
    change (Ascii.eqb backslash dquote) with false.
    change (Ascii.eqb backslash backslash) with true.
    change (Ascii.eqb dquote backslash) with false. simpl. apply IH.
  - cbn [quotes_escaped_from]. rewrite E. simpl. apply IH.
Qed.

Lemma encode_symbol_length (s : string) :
  String.length (encode_symbol s) = String.length s + str_count dquote s.
Proof.
  induction s as [|c s IH]; [reflexivity|].
  rewrite encode_symbol_cons. cbn [str_count String.length].
  destruct (Ascii.eqb c dquote); cbn [String.length]; rewrite IH; lia.
Qed.

Lemma encode_symbol_plain (s : string) :
  str_count dquote s = 0 -> encode_symbol s = s.
Proof.
  induction s as [|c s IH]; [reflexivity|].
  rewrite encode_symbol_cons. cbn [str_count].
  destruct (Ascii.eqb c dquote); [discriminate|].
  intros H. now rewrite IH.
Qed.

(** X1.  The escaping of names loses nothing: two names with the same
    escaped form are the same name, so that two decoded names never share a
    node by the escaping. *)
Theorem encode_symbol_injective (a b : string) :
  encode_symbol a = encode_symbol b <-> a = b.
Proof. split; [apply encode_symbol_inj | now intros ->]. Qed.

(** X2.  In an escaped name every double quote comes right after a
    backslash, and the name is longer than the raw one by the number of its
    double quotes. *)
Theorem encode_symbol_quotes (s : string) :
  quotes_escaped (encode_symbol s) = true
  /\ String.length (encode_symbol s) = String.length s + str_count dquote s.
Proof. split; [apply encode_symbol_escaped | apply encode_symbol_length]. Qed.

(** X3.  The escaping changes a name exactly when the name has a double
    quote: every other character, a backslash too, is left as it is. *)
Theorem encode_symbol_identity (s : string) :
  encode_symbol s = s <-> str_count dquote s = 0.
Proof.
  split; [|apply encode_symbol_plain].
  intros H. pose proof (encode_symbol_length s) as L. rewrite H in L. lia.
Qed.

(** ** The decoder on ill-formed identifiers *)

(** A check of a fact about every character, one character at a time. *)
Ltac each_char c :=
  destruct c as [[] [] [] [] [] [] [] []]; vm_compute; reflexivity.

Lemma numeric_not_underscore (c : ascii) :
  implb (isnumeric c) (negb (Ascii.eqb c "_")) = true.
Proof. each_char c. Qed.

Lemma numeric_not_space (c : ascii) :
  implb (isnumeric c) (negb (isspace c)) = true.
Proof. each_char c. Qed.

Lemma numeric_digit_val (c : ascii) :
  implb (isnumeric c)
        (match digit_val c with
         | Some d => isdecimal c && (d <? 10)%Z
         | None => negb (isdecimal c)
         end) = true.
Proof. each_char c. Qed.

Lemma numeric_no_sign (c : ascii) (s : string) :
  isnumeric c = true -> int_sign (String c s) = (1%Z, String c s).
Proof.
  destruct c as [[] [] [] [] [] [] [] []]; try discriminate; reflexivity.
Qed.

Lemma int_prefix_10 (s : string) : int_prefix 10 s = s.
Proof.
  destruct s as [|c [|x s]]; try reflexivity;
    destruct c as [[] [] [] [] [] [] [] []]; reflexivity.
Qed.

(** A run of numeric characters with one that is no decimal digit is no
    literal of base 10. *)
Lemma int_digits_not_decimal (s : string) (acc : Z) (after_digit : bool) :
  str_all isnumeric s = true -> str_all isdecimal s = false ->
  int_digits 10 s acc after_digit = None.
Proof.
  revert acc after_digit; induction s as [|c s IH]; intros acc ad Hn Hd;
    [discriminate|].
  cbn [str_all] in Hn, Hd. apply andb_true_iff in Hn as [Hc Hn].
  pose proof (numeric_not_underscore c) as Hu.
  pose proof (numeric_not_space c) as Hs.
  pose proof (numeric_digit_val c) as Hv.
  rewrite Hc in Hu, Hs, Hv. cbn [implb] in Hu, Hs, Hv.
  apply negb_true_iff in Hu, Hs.
  cbn [int_digits all_space]. rewrite Hu, Hs.
  destruct (digit_val c) as [d|].
  - apply andb_true_iff in Hv as [Hdec Hlt]. rewrite Hlt.
    rewrite Hdec in Hd. now apply IH.
  - now rewrite andb_false_r.
Qed.

Lemma py_int_not_decimal (s : string) :
  str_all isnumeric s = true -> str_all isdecimal s = false ->
  py_int 10 s = Raise ValueError.
Proof.
  intros Hn Hd. destruct s as [|c s]; [discriminate|].
  pose proof Hn as Hn'. cbn [str_all] in Hn'.
  apply andb_true_iff in Hn' as [Hc _].
  pose proof (numeric_not_space c) as Hs. rewrite Hc in Hs.
  apply negb_true_iff in Hs.
  unfold py_int. cbn [lstrip]. rewrite Hs, (numeric_no_sign c s Hc).
  now rewrite int_prefix_10, int_digits_not_decimal.
Qed.

(** The scan of a run of numeric characters stops at the first character
    after the run. *)
Lemma scan_length_numeric (ds tail : string) (len i : nat) :
  str_all isnumeric ds = true ->
  starts_non_numeric tail = true ->
  i + String.length ds < len ->
  scan_length (ds ++ tail) len i = Ok (i + String.length ds).
Proof.
  revert i; induction ds as [|d ds IH]; intros i Hds Htail Hlen; simpl in *.
  - destruct tail as [|c tail]; [discriminate|]. simpl in *.
    apply negb_true_iff in Htail. rewrite Htail. simpl. f_equal. lia.
  - apply andb_true_iff in Hds as [Hd Hds]. rewrite Hd.
    destruct (Nat.ltb_spec i len); [|lia]. simpl.
    rewrite IH by (auto; lia). f_equal. lia.
Qed.

(** One turn of the loop on a text that begins with a numeric character. *)
Lemma demangle_loop_numeric (fuel : nat) (d : ascii) (s : string)
      (parts : list string) :
  isnumeric d = true ->
  demangle_loop (S fuel) (String d s) parts
  = match scan_length s (S (String.length s)) 1 with
    | Raise e => Some (Raise e)
    | Ok i =>
        match py_int 10 (slice_to (String d s) (Z.of_nat i)) with
        | Raise e => Some (Raise e)
        | Ok n =>
            demangle_loop fuel
              (slice_from (slice_from (String d s) (Z.of_nat i)) n)
              (parts ++ [slice_to (slice_from (String d s) (Z.of_nat i)) n])%list
        end
    end.
Proof.
  intros Hd. pose proof (numeric_not_underscore d) as Hu.
  rewrite Hd in Hu. apply negb_true_iff in Hu.
  cbn [demangle_loop str_drop String.length]. now rewrite Hu, Hd.
Qed.

Lemma demangle_parts_unterminated (comps : list (string * string)) :
  Forall component comps ->
  demangle_parts (components_text comps) = Raise IndexError.
Proof.
  intros Hc. apply demangle_parts_of_loop with (f := List.length comps + 1).
  rewrite <- (str_app_nil_r (components_text comps)).
  now rewrite demangle_loop_components.
Qed.

Lemma demangle_parts_in_prefix (comps : list (string * string)) (ds : string) :
  Forall component comps ->
  ds <> EmptyString -> str_all isdecimal ds = true ->
  demangle_parts (components_text comps ++ ds) = Raise IndexError.
Proof.
  intros Hc Hne Hds.
  apply demangle_parts_of_loop with (f := List.length comps + 1).
  rewrite demangle_loop_components by exact Hc.
  destruct ds as [|d ds]; [congruence|].
  cbn [str_all] in Hds. apply andb_true_iff in Hds as [Hd Hds].
  rewrite demangle_loop_numeric by now apply isdecimal_isnumeric.
  rewrite scan_length_end; [reflexivity | exact Hds | lia].
Qed.

Lemma demangle_parts_not_decimal (comps : list (string * string))
      (pre tail : string) :
  Forall component comps ->
  pre <> EmptyString -> str_all isnumeric pre = true ->
  str_all isdecimal pre = false ->
  starts_non_numeric tail = true ->
  demangle_parts (components_text comps ++ pre ++ tail) = Raise ValueError.
Proof.
  intros Hc Hne Hn Hd Ht.
  apply demangle_parts_of_loop with (f := List.length comps + 1).
  rewrite demangle_loop_components by exact Hc.
  destruct pre as [|d pre]; [congruence|].
  pose proof Hn as Hn'. cbn [str_all] in Hn'.
  apply andb_true_iff in Hn' as [Hd0 Hpre].
  change (String d pre ++ tail) with (String d (pre ++ tail)).
  rewrite demangle_loop_numeric by exact Hd0.
  rewrite scan_length_numeric; auto.
  2:{ rewrite str_length_app. destruct tail; [discriminate|]. simpl. lia. }
  change (String d (pre ++ tail)) with (String d pre ++ tail).
  change (1 + String.length pre) with (String.length (String d pre)).
  rewrite slice_to_app. now rewrite py_int_not_decimal.
Qed.

(** X4.  A compressed identifier that ends right after its components, or
    within a length prefix, stops the decoder with an index error: the
    marker alone does so too. *)
Theorem demangle_rust_unterminated (comps : list (string * string)) :
  Forall component comps ->
  demangle_rust ("_ZN" ++ components_text comps) = Raise IndexError
  /\ forall ds : string,
      ds <> EmptyString -> str_all isdecimal ds = true ->
      demangle_rust ("_ZN" ++ components_text comps ++ ds) = Raise IndexError.
Proof.
  intros Hc. split.
  - unfold demangle_rust.
    destruct (mangled_body (components_text comps)) as [-> ->].
    now rewrite demangle_parts_unterminated.
  - intros ds Hne Hds. unfold demangle_rust.
    destruct (mangled_body (components_text comps ++ ds)) as [-> ->].
    now rewrite demangle_parts_in_prefix.
Qed.

Lemma demangle_rust_unterminated_witness :
  demangle_rust "_ZN4core3fmt" = Raise IndexError
  /\ forall ds : string,
      ds <> EmptyString -> str_all isdecimal ds = true ->
      demangle_rust ("_ZN" ++ components_text [("4", "core"); ("3", "fmt")] ++ ds)
      = Raise IndexError.
Proof.
  apply (demangle_rust_unterminated [("4", "core"); ("3", "fmt")]).
  repeat constructor; discriminate.
Defined.

Lemma drop_last_two_app {A : Type} (l : list A) (x y : A) :
  drop_last_two (l ++ [x; y]) = l.
Proof.
  unfold drop_last_two. rewrite length_app. simpl.
  replace (List.length l + 2 - 2) with (List.length l + 0) by lia.
  rewrite firstn_app_2. simpl. apply app_nil_r.
Qed.

(** X5.  The last component of a well-formed identifier, which holds the
    hash, and the remainder never show in the decoded name: the name is made
    of the components before the last one, so that identifiers that differ
    only there are decoded to the same name, and an identifier with no
    component is decoded to the empty name. *)
Theorem demangle_rust_drops_hash
        (comps : list (string * string)) (h : string * string) (rest : string) :
  Forall component comps -> component h ->
  starts_non_numeric rest = true ->
  demangle_rust (mangled (comps ++ [h]) rest)
  = Ok (unescape (str_join "::" (map snd comps)))
  /\ demangle_rust (mangled [] rest) = Ok EmptyString.
Proof.
  intros Hc Hh Hr. split.
  - rewrite demangle_rust_terminated; auto.
    + rewrite map_app, <- app_assoc. simpl. now rewrite drop_last_two_app.
    + apply Forall_app. auto.
  - now rewrite demangle_rust_terminated.
Qed.

Lemma demangle_rust_drops_hash_witness :
  demangle_rust "_ZN4core3fmt2h1E" = Ok "core::fmt"
  /\ demangle_rust "_ZNE" = Ok EmptyString.
Proof.
  apply (demangle_rust_drops_hash [("4", "core"); ("3", "fmt")] ("2", "h1") "E").
  - repeat constructor; discriminate.
  - repeat split; discriminate.
  - reflexivity.
Defined.

(** X6.  Where a length prefix is expected, a run of numeric characters that
    holds one that is no decimal digit, such as a superscript digit, stops
    the decoder with a value error. *)
Theorem demangle_rust_not_decimal
        (comps : list (string * string)) (pre tail : string) :
  Forall component comps ->
  pre <> EmptyString -> str_all isnumeric pre = true ->
  str_all isdecimal pre = false ->
  starts_non_numeric tail = true ->
  demangle_rust ("_ZN" ++ components_text comps ++ pre ++ tail)
  = Raise ValueError.
Proof.
  intros Hc Hne Hn Hd Ht. unfold demangle_rust.
  destruct (mangled_body (components_text comps ++ pre ++ tail)) as [-> ->].
  now rewrite demangle_parts_not_decimal.
Qed.

Lemma demangle_rust_not_decimal_witness :
  demangle_rust ("_ZN" ++ components_text [("4", "core")]
                       ++ String "1" (String "178" EmptyString) ++ "ab")
  = Raise ValueError.
Proof.
  apply (demangle_rust_not_decimal [("4", "core")]
           (String "1" (String "178" EmptyString)) "ab").
  - repeat constructor; discriminate.
  - discriminate.
  - reflexivity.
  - reflexivity.
  - reflexivity.
Defined.

(** ** The references of a line *)

(** The matcher of references finds the name exactly when the text begins
    with the name in angle brackets. *)
Lemma symbol_ref_match_iff (s r : string) :
  symbol_ref_match s = Some r
  <-> exists b, s = "<" ++ r ++ ">" ++ b
                /\ r <> EmptyString /\ str_all is_word r = true.
Proof.
  unfold symbol_ref_match. split.
  - destruct (startswith s "<") eqn:Hs; [|discriminate].
    apply startswith_split in Hs. simpl in Hs.
    destruct (span is_word (str_drop 1 s)) as [nm r2] eqn:H2.
    destruct ((0 <? String.length nm)%nat && startswith r2 ">") eqn:Hn;
      [|discriminate].
    apply andb_true_iff in Hn as [Hn Hr2]. intros [= <-].
    apply span_spec in H2 as (E2 & Hword & _).
    apply startswith_split in Hr2. simpl in Hr2.
    exists (str_drop 1 r2). repeat split; auto.
    + rewrite Hs at 1. simpl. f_equal. rewrite E2 at 1. f_equal. exact Hr2.
    + now apply str_nonempty_length.
  - intros (b & -> & Hne & Hword). simpl.
    rewrite (span_app _ r _ Hword) by reflexivity.
    apply str_nonempty_length in Hne. now rewrite Hne.
Qed.

Lemma symbol_ref_match_other (c : ascii) (s : string) :
  Ascii.eqb c "<" = false -> symbol_ref_match (String c s) = None.
Proof.
  intros H. unfold symbol_ref_match. cbn [startswith].
  now rewrite Ascii.eqb_sym, H.
Qed.

(** Over characters that are no opening bracket the search finds nothing,
    whether it passes them or tries them. *)
Lemma findall_from_pass (p t : string) (k : nat) :
  str_count "<" p = 0 -> k <= String.length p ->
  findall_from k (p ++ t) = findall_from 0 (str_drop (String.length p) (p ++ t)).
Proof.
  revert k; induction p as [|c p IH]; intros k Hp Hk; simpl in *.
  - now replace k with 0 by lia.
  - destruct (Ascii.eqb c "<") eqn:E; [discriminate|].
    destruct k as [|k].
    + rewrite symbol_ref_match_other by exact E. apply IH; [exact Hp | lia].
    + apply IH; [exact Hp | lia].
Qed.

Lemma word_no_bracket (r : string) :
  str_all is_word r = true -> str_count "<" (r ++ ">") = 0.
Proof.
  induction r as [|c r IH]; simpl; intros H; [reflexivity|].
  apply andb_true_iff in H as [Hc H]. rewrite (IH H).
  destruct (Ascii.eqb_spec c "<") as [->|]; [discriminate|reflexivity].
Qed.

(** The search at a reference: the name, then the references after it. *)
Lemma findall_from_match (r b : string) :
  r <> EmptyString -> str_all is_word r = true ->
  findall_from 0 ("<" ++ r ++ ">" ++ b) = r :: findall_from 0 b.
Proof.
  intros Hne Hword.
  assert (Hm : symbol_ref_match ("<" ++ r ++ ">" ++ b) = Some r)
    by (apply symbol_ref_match_iff; eauto).
  change ("<" ++ r ++ ">" ++ b) with (String "<" (r ++ ">" ++ b)) in *.
  cbn [findall_from]. rewrite Hm. f_equal.
  rewrite <- (str_app_assoc r ">" b).
  rewrite findall_from_pass.
  - now rewrite str_drop_app.
  - now apply word_no_bracket.
  - rewrite str_length_app. simpl. lia.
Qed.

Lemma findall_from_step (c : ascii) (s : string) (r : string) :
  In r (findall_from 0 s) -> In r (findall_from 0 (String c s)).
Proof.
  intros H. destruct (symbol_ref_match (String c s)) as [nm|] eqn:Hm.
  - apply symbol_ref_match_iff in Hm as (b & E & Hne & Hword).
    assert (Es : c = "<"%char /\ s = (nm ++ ">") ++ b).
    { rewrite str_app_assoc. simpl in E. now injection E as -> ->. }
    destruct Es as [-> ->].
    replace (String "<" ((nm ++ ">") ++ b)) with ("<" ++ nm ++ ">" ++ b)
      by (simpl; now rewrite str_app_assoc).
    rewrite findall_from_match by assumption. right.
    rewrite findall_from_pass with (k := 0) in H;
      [| now apply word_no_bracket | lia].
    now rewrite str_drop_app in H.
  - cbn [findall_from]. now rewrite Hm.
Qed.

Lemma findall_from_sound (k : nat) (s r : string) :
  In r (findall_from k s) ->
  exists a b, s = a ++ "<" ++ r ++ ">" ++ b
              /\ r <> EmptyString /\ str_all is_word r = true.
Proof.
  revert k; induction s as [|c s IH]; intros k H; [destruct H|].
  assert (Hrest : forall k', In r (findall_from k' s) ->
                             exists a b, String c s = a ++ "<" ++ r ++ ">" ++ b
                                         /\ r <> EmptyString
                                         /\ str_all is_word r = true).
  { intros k' H'. destruct (IH _ H') as (a & b & -> & Hne & Hw).
    exists (String c a), b. auto. }
  cbn [findall_from] in H. destruct k as [|k]; [|eauto].
  destruct (symbol_ref_match (String c s)) as [nm|] eqn:Hm; [|eauto].
  destruct H as [->|H]; [|eauto].
  apply symbol_ref_match_iff in Hm as (b & E & Hne & Hw).
  exists EmptyString, b. auto.
Qed.

Lemma symbol_refs_iff (line r : string) :
  In r (symbol_refs line)
  <-> exists a b, line = a ++ "<" ++ r ++ ">" ++ b
                  /\ r <> EmptyString /\ str_all is_word r = true.
Proof.
  unfold symbol_refs. split; [apply findall_from_sound|].
  intros (a & b & -> & Hne & Hw).
  induction a as [|c a IH].
  - change (In r (findall_from 0 ("<" ++ r ++ ">" ++ b))).
    rewrite findall_from_match by assumption. now left.
  - change (In r (findall_from 0 (String c (a ++ "<" ++ r ++ ">" ++ b)))).
    apply findall_from_step. exact IH.
Qed.

(** ** The pairs of the parser *)

Lemma parse_lines_In (sym : option string) (lines : list string)
      (c : option string) (r : string) :
  In (c, r) (parse_lines sym lines) ->
  exists line, In line lines /\ new_symbol_match line = None
               /\ In r (symbol_refs line).
Proof.
  revert sym; induction lines as [|l lines IH]; intros sym H; [destruct H|].
  cbn [parse_lines] in H. destruct (new_symbol_match l) eqn:Hl.
  - destruct (IH _ H) as (line & Hin & Hn & Hr). exists line. simpl. auto.
  - apply in_app_or in H as [H|H].
    + apply in_map_iff in H as (r' & [= <- <-] & Hr). exists l. simpl. auto.
    + destruct (IH _ H) as (line & Hin & Hn & Hr). exists line. simpl. auto.
Qed.

Lemma parse_lines_ref (sym : option string) (lines : list string)
      (line r : string) :
  In line lines -> new_symbol_match line = None -> In r (symbol_refs line) ->
  exists c, In (c, r) (parse_lines sym lines).
Proof.
  revert sym; induction lines as [|l lines IH]; intros sym Hin Hn Hr;
    [destruct Hin|].
  cbn [parse_lines]. destruct Hin as [->|Hin].
  - rewrite Hn. exists sym. apply in_or_app. left.
    apply in_map_iff. eauto.
  - destruct (new_symbol_match l).
    + now apply IH.
    + destruct (IH sym Hin Hn Hr) as [c Hc]. exists c.
      apply in_or_app. now right.
Qed.

(** X7.  The names that the parser gives as referenced symbols are exactly
    the non-empty runs of word characters that stand in angle brackets in a
    line that is no function-start line; a bracketed text with any other
    character, such as an offset, is never given. *)
Theorem parse_edges_references (asm r : string) :
  (exists c, In (c, r) (parse_edges asm))
  <-> exists line a b,
      In line (str_split newline asm)
      /\ new_symbol_match line = None
      /\ line = a ++ "<" ++ r ++ ">" ++ b
      /\ r <> EmptyString /\ str_all is_word r = true.
Proof.
  unfold parse_edges. split.
  - intros [c H]. apply parse_lines_In in H as (line & Hin & Hn & Hr).
    apply symbol_refs_iff in Hr as (a & b & E & Hne & Hw).
    exists line, a, b. auto.
  - intros (line & a & b & Hin & Hn & E & Hne & Hw).
    apply parse_lines_ref with (line := line); auto.
    apply symbol_refs_iff. eauto.
Qed.

Lemma parse_lines_caller (sym : option string) (lines : list string)
      (c : option string) (r : string) :
  In (c, r) (parse_lines sym lines) ->
  c = sym \/ exists line name,
      In line lines /\ function_start line name /\ c = Some name.
Proof.
  revert sym; induction lines as [|l lines IH]; intros sym H; [destruct H|].
  cbn [parse_lines] in H. destruct (new_symbol_match l) as [nm|] eqn:Hl.
  - right. destruct (IH _ H) as [->|(line & name & Hin & Hf & ->)].
    + exists l, nm. split; [now left|]. split; [|reflexivity].
      now apply new_symbol_match_iff.
    + exists line, name. simpl. auto.
  - apply in_app_or in H as [H|H].
    + apply in_map_iff in H as (r' & [= <- <-] & _). now left.
    + destruct (IH _ H) as [->|(line & name & Hin & Hf & ->)]; [now left|].
      right. exists line, name. simpl. auto.
Qed.

Lemma parse_lines_orphan (lines : list string) (r : string) :
  In (None, r) (parse_lines None lines) ->
  exists pre line post,
    lines = (pre ++ line :: post)%list
    /\ forallb (fun l => match new_symbol_match l with
                         | None => true
                         | Some _ => false
                         end) (pre ++ [line]) = true
    /\ In r (symbol_refs line).
Proof.
  induction lines as [|l lines IH]; intros H; [destruct H|].
  cbn [parse_lines] in H. destruct (new_symbol_match l) as [nm|] eqn:Hl.
  - apply parse_lines_caller in H as [E|(line & name & _ & _ & E)];
      discriminate.
  - apply in_app_or in H as [H|H].
    + apply in_map_iff in H as (r' & [= <-] & Hr).
      exists [], l, lines. simpl. rewrite Hl. auto.
    + destruct (IH H) as (pre & line & post & -> & Hall & Hr).
      exists (l :: pre), line, post. simpl. rewrite Hl. auto.
Qed.

(** X8.  The caller of a pair is the name of a function-start line of the
    text, or [None]; and [None] is the caller only of references that stand
    before the first function-start line. *)
Theorem parse_edges_callers (asm : string) (r : string) :
  (forall n, In (Some n, r) (parse_edges asm) ->
             exists line, In line (str_split newline asm)
                          /\ function_start line n)
  /\ (In (None, r) (parse_edges asm) ->
      exists pre line post,
        str_split newline asm = (pre ++ line :: post)%list
        /\ forallb (fun l => match new_symbol_match l with
                             | None => true
                             | Some _ => false
                             end) (pre ++ [line]) = true
        /\ In r (symbol_refs line)).
Proof.
  unfold parse_edges. split.
  - intros n H. apply parse_lines_caller in H as [E|(line & name & Hin & Hf & E)].
    + discriminate.
    + injection E as ->. eauto.
  - apply parse_lines_orphan.
Qed.

Lemma parse_edges_callers_witness :
  exists line, In line (str_split newline abbc_asm) /\ function_start line "B".
Proof.
  apply (proj1 (parse_edges_callers abbc_asm "C") "B").
  vm_compute. auto.
Defined.

(** ** The parser on a text in two parts *)

Lemma str_split_nonempty (sep : ascii) (s : string) : str_split sep s <> [].
Proof.
  destruct s as [|c s]; simpl; [discriminate|].
  destruct (Ascii.eqb c sep); [discriminate|].
  destruct (str_split sep s); discriminate.
Qed.

Lemma str_split_app (sep : ascii) (a b : string) :
  str_split sep (a ++ String sep b)
  = (str_split sep a ++ str_split sep b)%list.
Proof.
  induction a as [|c a IH]; simpl.
  - now rewrite Ascii.eqb_refl.
  - destruct (Ascii.eqb c sep); rewrite IH; [reflexivity|].
    pose proof (str_split_nonempty sep a) as Hne.
    destruct (str_split sep a); [congruence|reflexivity].
Qed.

Lemma parse_lines_app (sym : option string) (l1 l2 : list string) :
  parse_lines sym (l1 ++ l2)
  = (parse_lines sym l1 ++ parse_lines (current_symbol sym l1) l2)%list.
Proof.
  revert sym; induction l1 as [|l l1 IH]; intros sym; simpl; [reflexivity|].
  destruct (new_symbol_match l); [apply IH|].
  now rewrite IH, app_assoc.
Qed.

(** X9.  The parser reads a text line by line with the current symbol as
    its only state: the pairs of two texts joined by a newline are the pairs
    of the first text, then the pairs of the second text read with the
    current symbol that the first text leaves. *)
Theorem parse_edges_app (a b : string) :
  parse_edges (a ++ String newline b)
  = (parse_edges a
     ++ parse_lines (current_symbol None (str_split newline a))
                    (str_split newline b))%list.
Proof. unfold parse_edges. now rewrite str_split_app, parse_lines_app. Qed.

(** ** The builder and the printer, step by step *)

Lemma add_edges_eq (demangle : Demangler) (es : list Edge) (gr : DiGraph) :
  add_edges demangle es gr
  = (des <- decode_edges demangle es ;; Ok (add_edges_from des gr)).
Proof.
  revert gr; induction es as [|[src dest] es IH]; intros gr; [reflexivity|].
  cbn [add_edges decode_edges]. unfold decode_edge. cbn [fst snd].
  destruct (demangle src) as [src'|e]; [|reflexivity]. cbn [bind].
  destruct (demangle (Some dest)) as [dest'|e]; [|reflexivity]. cbn [bind].
  rewrite IH. now destruct (decode_edges demangle es).
Qed.

Lemma add_sizes_outcome (demangle : Demangler) (sizes : SizeDict) (gr : DiGraph) :
  (g <- add_sizes demangle sizes gr ;; Ok tt)
  = (dsz <- decode_sizes demangle sizes ;; Ok tt).
Proof.
  revert gr; induction sizes as [|[sym size] sizes IH]; intros gr;
    [reflexivity|].
  cbn [add_sizes decode_sizes].
  destruct (demangle (Some sym)) as [sym'|e]; [|reflexivity]. cbn [bind].
  rewrite IH. now destruct (decode_sizes demangle sizes).
Qed.

Lemma to_digraph_outcome (asm out : string) (demangle : Demangler) :
  (gr <- to_digraph asm out demangle ;; Ok tt)
  = (des <- decode_edges demangle (symbol_ref_edges asm) ;;
     sizes <- symbol_sizes out ;;
     dsz <- decode_sizes demangle sizes ;;
     Ok tt).
Proof.
  unfold to_digraph. rewrite add_edges_eq.
  destruct (decode_edges demangle (symbol_ref_edges asm)) as [des|e];
    [|reflexivity].
  cbn [bind]. destruct (symbol_sizes out) as [sizes|e]; [|reflexivity].
  cbn [bind]. apply add_sizes_outcome.
Qed.

(** The first loop of the printer: it prints edge lines only, and stops as
    the decoding of the edges stops. *)
Lemma print_edges_outcome (demangle : Demangler) (es : list Edge)
      (lines : list string) :
  exists printed,
    io_for (fun e : Edge =>
              let '(src, dest) := e in
              src' <~ io_lift (demangle src) ;;
              dest' <~ io_lift (demangle (Some dest)) ;;
              print (edge_line (encode_symbol src') (encode_symbol dest')))
           es lines
    = ((lines ++ printed)%list, des <- decode_edges demangle es ;; Ok tt)
    /\ forall l, In l printed -> exists u v, l = edge_line u v.
Proof.
  revert lines; induction es as [|[src dest] es IH]; intros lines.
  - exists []. simpl. rewrite app_nil_r. split; [reflexivity | intros l []].
  - cbn [io_for decode_edges]. unfold decode_edge. cbn [fst snd].
    unfold io_bind at 1. unfold io_bind at 1, io_lift at 1.
    destruct (demangle src) as [src'|e].
    2:{ exists []. simpl. rewrite app_nil_r. split; [reflexivity | intros l []]. }
    unfold io_bind at 1, io_lift at 1.
    destruct (demangle (Some dest)) as [dest'|e].
    2:{ exists []. simpl. rewrite app_nil_r. split; [reflexivity | intros l []]. }
    unfold print at 1. cbn [bind].
    destruct (IH (lines ++ [edge_line (encode_symbol src') (encode_symbol dest')])%list)
      as (printed & Hf & Hl).
    exists (edge_line (encode_symbol src') (encode_symbol dest') :: printed).
    rewrite Hf, <- app_assoc. split.
    + now destruct (decode_edges demangle es).
    + intros l [<-|Hin]; eauto.
Qed.

Lemma print_sizes_outcome (demangle : Demangler) (sizes : SizeDict)
      (lines : list string) :
  exists printed,
    io_for (fun item : string * Z =>
              let '(sym, size) := item in
              sym' <~ io_lift (demangle (Some sym)) ;;
              print (size_line (encode_symbol sym') size))
           sizes lines
    = ((lines ++ printed)%list, dsz <- decode_sizes demangle sizes ;; Ok tt)
    /\ forall l, In l printed -> exists u z, l = size_line u z.
Proof.
  revert lines; induction sizes as [|[sym size] sizes IH]; intros lines.
  - exists []. simpl. rewrite app_nil_r. split; [reflexivity | intros l []].
  - cbn [io_for decode_sizes].
    unfold io_bind at 1. unfold io_bind at 1, io_lift at 1.
    destruct (demangle (Some sym)) as [sym'|e].
    2:{ exists []. simpl. rewrite app_nil_r. split; [reflexivity | intros l []]. }
    unfold print at 1. cbn [bind].
    destruct (IH (lines ++ [size_line (encode_symbol sym') size])%list)
      as (printed & Hf & Hl).
    exists (size_line (encode_symbol sym') size :: printed).
    rewrite Hf, <- app_assoc. split.
    + now destruct (decode_sizes demangle sizes).
    + intros l [<-|Hin]; eauto.
Qed.

(** What the printer has printed when it stops, and how it stops. *)
Lemma to_dot_outcome (asm out : string) (demangle : Demangler) :
  exists body,
    (forall l, In l body ->
               (exists u v, l = edge_line u v) \/ (exists u z, l = size_line u z))
    /\ to_dot_output asm out demangle
       = (match (gr <- to_digraph asm out demangle ;; Ok tt) with
          | Ok _ => ("digraph {" :: body ++ ["}"])%list
          | Raise _ => "digraph {" :: body
          end,
          gr <- to_digraph asm out demangle ;; Ok tt).
Proof.
  rewrite to_digraph_outcome. unfold to_dot_output, to_dot.
  unfold io_bind at 1. unfold print at 1. cbn [app].
  unfold io_bind at 1.
  destruct (print_edges_outcome demangle (symbol_ref_edges asm) ["digraph {"])
    as (pe & -> & Hl).
  destruct (decode_edges demangle (symbol_ref_edges asm)) as [des|e];
    cbn [bind].
  2:{ exists pe. split; [|reflexivity]. intros l Hin. left. auto. }
  unfold io_bind at 1. unfold io_lift at 1.
  destruct (symbol_sizes out) as [sizes|e]; cbn [bind].
  2:{ exists pe. split; [|reflexivity]. intros l Hin. left. auto. }
  unfold io_bind at 1.
  destruct (print_sizes_outcome demangle sizes (["digraph {"] ++ pe)%list)
    as (ps & -> & Hl2).
  exists (pe ++ ps)%list.
  split; [intros l Hin; apply in_app_or in Hin as [Hin|Hin]; auto|].
  destruct (decode_sizes demangle sizes) as [dsz|e]; cbn [bind].
  - unfold print. reflexivity.
  - reflexivity.
Qed.

(** X10.  The printer and the builder stop in the same way: on the same
    texts and with the same decoder, the printer ends well exactly when the
    builder gives a graph, and raises what the builder raises. *)
Theorem to_dot_to_digraph_outcome (asm out : string) (demangle : Demangler) :
  snd (to_dot_output asm out demangle)
  = (gr <- to_digraph asm out demangle ;; Ok tt).
Proof.
  destruct (to_dot_outcome asm out demangle) as (body & _ & H).
  now rewrite H.
Qed.

Lemma edge_line_not_brace (u v : string) : edge_line u v <> "}".
Proof. discriminate. Qed.

Lemma size_line_not_brace (u : string) (z : Z) : size_line u z <> "}".
Proof. discriminate. Qed.

(** X11.  The printer always begins with the opening line; it ends with the
    closing line when it ends well, and a run that raises has printed no
    closing line at all, so that what it has printed is no whole graph
    description. *)
Theorem to_dot_closing_line (asm out : string) (demangle : Demangler) :
  (exists rest, fst (to_dot_output asm out demangle) = "digraph {" :: rest)
  /\ (snd (to_dot_output asm out demangle) = Ok tt ->
      last (fst (to_dot_output asm out demangle)) EmptyString = "}")
  /\ (forall e, snd (to_dot_output asm out demangle) = Raise e ->
                ~ In "}" (fst (to_dot_output asm out demangle))).
Proof.
  destruct (to_dot_outcome asm out demangle) as (body & Hbody & ->).
  cbn [fst snd]. split; [|split].
  - destruct (gr <- to_digraph asm out demangle ;; Ok tt); eauto.
  - intros ->. rewrite app_comm_cons. apply last_last.
  - intros e ->. intros [H|H]; [discriminate|].
    apply Hbody in H as [(u & v & H)|(u & z & H)].
    + now apply (edge_line_not_brace u v).
    + now apply (size_line_not_brace u z).
Qed.

Lemma to_dot_closing_line_witness :
  last (fst (to_dot_output abbc_asm "0 10 T A" demangle_rust_sym)) EmptyString
  = "}".
Proof.
  apply (proj1 (proj2 (to_dot_closing_line abbc_asm "0 10 T A" demangle_rust_sym))).
  reflexivity.
Defined.

(** ** Sizes in the description and in the graph *)

(** The decoded items follow the items of the table, one for one. *)
Lemma decode_sizes_items (demangle : Demangler) (sizes : SizeDict)
      (dsz : list (string * Z)) :
  decode_sizes demangle sizes = Ok dsz ->
  Forall2 (fun item ditem =>
             exists sym', demangle (Some (fst item)) = Ok sym'
                          /\ ditem = (encode_symbol sym', snd item))
          sizes dsz.
Proof.
  revert dsz; induction sizes as [|[sym size] sizes IH]; intros dsz H;
    simpl in H.
  - injection H as <-. constructor.
  - apply bind_ok in H as (sym' & Hs & H).
    apply bind_ok in H as (ps & Hps & H). injection H as <-.
    constructor; [|now apply IH]. exists sym'. auto.
Qed.

(** X12.  When the printer ends well, the description has one size line for
    every item of the size table, in the order of the table and with the
    size of the table, under the decoded and escaped name of the item:
    whether the name is a node of the graph plays no part. *)
Theorem to_dot_size_lines (asm out : string) (demangle : Demangler) :
  snd (to_dot_output asm out demangle) = Ok tt ->
  exists des sizes dsz,
    decode_edges demangle (symbol_ref_edges asm) = Ok des
    /\ symbol_sizes out = Ok sizes
    /\ Forall2 (fun item ditem =>
                  exists sym', demangle (Some (fst item)) = Ok sym'
                               /\ ditem = (encode_symbol sym', snd item))
               sizes dsz
    /\ fst (to_dot_output asm out demangle)
       = ("digraph {" :: map (fun p => edge_line (fst p) (snd p)) des
            ++ map (fun p => size_line (fst p) (snd p)) dsz ++ ["}"])%list.
Proof.
  intros H.
  destruct (to_dot_outcome asm out demangle) as (body & _ & E).
  rewrite E in H. cbn [snd] in H.
  destruct (to_digraph asm out demangle) as [gr|e] eqn:Hgr; [|discriminate].
  destruct (to_digraph_parts _ _ _ _ Hgr)
    as (des & sizes & dsz & Hdes & Hs & Hdsz & _ & _).
  exists des, sizes, dsz. repeat split; auto.
  - now apply decode_sizes_items.
  - now rewrite (to_dot_lines _ _ _ _ _ _ Hdes Hs Hdsz).
Qed.

Lemma to_dot_size_lines_witness :
  exists des sizes dsz,
    decode_edges demangle_rust_sym (symbol_ref_edges abbc_asm) = Ok des
    /\ symbol_sizes "0 8 T unused" = Ok sizes
    /\ Forall2 (fun item ditem =>
                  exists sym', demangle_rust_sym (Some (fst item)) = Ok sym'
                               /\ ditem = (encode_symbol sym', snd item))
               sizes dsz
    /\ fst (to_dot_output abbc_asm "0 8 T unused" demangle_rust_sym)
       = ("digraph {" :: map (fun p => edge_line (fst p) (snd p)) des
            ++ map (fun p => size_line (fst p) (snd p)) dsz ++ ["}"])%list.
Proof.
  apply (to_dot_size_lines abbc_asm "0 8 T unused" demangle_rust_sym).
  reflexivity.
Defined.

(** The size attribute of a node. *)
Lemma node_size_set_size (n m : string) (z : Z) (gr : DiGraph) :
  node_size n (set_size m z gr)
  = if String.eqb m n
    then (if has_node n gr then Some z else None)
    else node_size n gr.
Proof.
  unfold node_size, set_size, has_node, node_names. cbn [nodes].
  destruct (String.eqb_spec m n) as [->|Hmn].
  - induction (nodes gr) as [|[a sz] l IH]; [reflexivity|].
    cbn [map find existsb fst]. rewrite (String.eqb_sym n a).
    destruct (String.eqb a n) eqn:E; cbn [fst orb]; rewrite E;
      [reflexivity | exact IH].
  - induction (nodes gr) as [|[a sz] l IH]; [reflexivity|].
    cbn [map find fst].
    destruct (String.eqb_spec a m) as [->|Ham]; cbn [fst].
    + apply String.eqb_neq in Hmn. rewrite Hmn. exact IH.
    + destruct (String.eqb a n); [reflexivity | exact IH].
Qed.

Lemma has_node_set_size (n m : string) (z : Z) (gr : DiGraph) :
  has_node n (set_size m z gr) = has_node n gr.
Proof. unfold has_node. now rewrite set_size_names. Qed.

Lemma add_sizes_node_size (demangle : Demangler) (sizes : SizeDict)
      (gr gr' : DiGraph) (dsz : list (string * Z)) :
  add_sizes demangle sizes gr = Ok gr' ->
  decode_sizes demangle sizes = Ok dsz ->
  forall n, node_size n gr'
            = if has_node n gr then last_entry n dsz (node_size n gr)
              else node_size n gr.
Proof.
  revert gr dsz; induction sizes as [|[sym size] sizes IH]; intros gr dsz H Hd n;
    simpl in H, Hd.
  - injection H as <-. injection Hd as <-. simpl. now destruct (has_node n gr).
  - apply bind_ok in H as (sym' & Hs & H). cbv zeta in H.
    rewrite Hs in Hd. cbn [bind] in Hd.
    apply bind_ok in Hd as (ps & Hps & Hd). injection Hd as <-.
    rewrite (IH _ _ H Hps n). cbn [last_entry].
    destruct (has_node (encode_symbol sym') gr) eqn:Hm.
    + rewrite has_node_set_size, node_size_set_size.
      destruct (String.eqb_spec (encode_symbol sym') n) as [E|Hne];
        [|reflexivity].
      rewrite E in Hm. now rewrite Hm.
    + destruct (String.eqb_spec (encode_symbol sym') n) as [E|Hne];
        [|reflexivity].
      rewrite E in Hm. now rewrite Hm.
Qed.

Lemma add_node_no_size (n : string) (gr : DiGraph) :
  Forall (fun na => snd na = None) (nodes gr) ->
  Forall (fun na => snd na = None) (nodes (add_node n gr)).
Proof.
  intros H. unfold add_node. destruct (has_node n gr); [exact H|].
  cbn [nodes]. apply Forall_app. split; [exact H | now repeat constructor].
Qed.

Lemma add_edges_from_no_size (des : list (string * string)) (gr : DiGraph) :
  Forall (fun na => snd na = None) (nodes gr) ->
  Forall (fun na => snd na = None) (nodes (add_edges_from des gr)).
Proof.
  revert gr; induction des as [|[u v] des IH]; intros gr H; [exact H|].
  unfold add_edges_from in *. cbn [fold_left fst snd]. apply IH.
  unfold add_edge.
  destruct (has_edge u v (add_node v (add_node u gr))); cbn [nodes];
    now do 2 apply add_node_no_size.
Qed.

Lemma node_size_none (n : string) (gr : DiGraph) :
  Forall (fun na => snd na = None) (nodes gr) -> node_size n gr = None.
Proof.
  intros H. unfold node_size.
  destruct (find _ (nodes gr)) as [[a sz]|] eqn:F; [|reflexivity].
  apply find_some in F as [Hin _].
  rewrite Forall_forall in H. exact (H _ Hin).
Qed.

(** X13.  In a graph that the builder gives, a node has the size of the last
    item of the size table whose decoded and escaped name is the name of the
    node, and no size when there is no such item; sizes of items with one
    name are not added up, and an item whose name is no node sets nothing. *)
Theorem to_digraph_node_sizes (asm out : string) (demangle : Demangler)
        (gr : DiGraph) :
  to_digraph asm out demangle = Ok gr ->
  exists sizes dsz,
    symbol_sizes out = Ok sizes
    /\ Forall2 (fun item ditem =>
                  exists sym', demangle (Some (fst item)) = Ok sym'
                               /\ ditem = (encode_symbol sym', snd item))
               sizes dsz
    /\ forall n, node_size n gr
                 = if has_node n gr then last_entry n dsz None else None.
Proof.
  intros H. unfold to_digraph in H.
  apply bind_ok in H as (gr0 & H0 & H).
  apply bind_ok in H as (sizes & Hs & H).
  rewrite add_edges_eq in H0. apply bind_ok in H0 as (des & Hdes & H0).
  injection H0 as <-.
  destruct (add_sizes_decode _ _ _ _ H) as (Hn & _ & dsz & Hdsz).
  exists sizes, dsz. split; [exact Hs|]. split; [now apply decode_sizes_items|].
  intros n. rewrite (add_sizes_node_size _ _ _ _ _ H Hdsz n).
  assert (E : has_node n gr = has_node n (add_edges_from des empty_graph))
    by (unfold has_node; now rewrite Hn).
  rewrite E, node_size_none; [reflexivity|].
  apply add_edges_from_no_size. constructor.
Qed.

Lemma to_digraph_node_sizes_witness :
  exists sizes dsz,
    symbol_sizes ("0 10 T _ZN1B1hE" ++ char newline ++ "0 20 T B") = Ok sizes
    /\ Forall2 (fun item ditem =>
                  exists sym', demangle_rust_sym (Some (fst item)) = Ok sym'
                               /\ ditem = (encode_symbol sym', snd item))
               sizes dsz
    /\ forall n,
        node_size n (mkDiGraph [("A", None); ("B", Some 32%Z); ("C", None)]
                               [("A", "B"); ("B", "C")])
        = if has_node n (mkDiGraph [("A", None); ("B", Some 32%Z); ("C", None)]
                                   [("A", "B"); ("B", "C")])
          then last_entry n dsz None else None.
Proof.
  apply (to_digraph_node_sizes abbc_asm
           ("0 10 T _ZN1B1hE" ++ char newline ++ "0 20 T B") demangle_rust_sym).
  reflexivity.
Defined.

(** ** References before the first function-start line *)

Lemma parse_lines_no_orphan (n r : string) (lines : list string) :
  ~ In (None, r) (parse_lines (Some n) lines).
Proof.
  intros H.
  apply parse_lines_caller in H as [E|(line & name & _ & _ & E)]; discriminate.
Qed.

(** The pairs with no caller come first. *)
Lemma parse_lines_orphan_first (lines : list string) (r : string) :
  In (None, r) (parse_lines None lines) ->
  exists r0 rest, parse_lines None lines = (None, r0) :: rest.
Proof.
  induction lines as [|l lines IH]; intros H; [destruct H|].
  cbn [parse_lines] in *. destruct (new_symbol_match l) as [nm|].
  - now apply parse_lines_no_orphan in H.
  - destruct (symbol_refs l) as [|r0 refs]; simpl in *; eauto.
Qed.

(** X14.  With the decoder of the program, a listing with a reference
    before its first function-start line cannot be processed: the builder
    raises an attribute error, and so does the printer, which has printed
    the opening line and nothing else. *)
Theorem orphan_reference_fails (asm out r : string) :
  In (None, r) (symbol_ref_edges asm) ->
  to_digraph asm out demangle_rust_sym = Raise AttributeError
  /\ to_dot_output asm out demangle_rust_sym
     = (["digraph {"], Raise AttributeError).
Proof.
  intros H. apply parse_lines_orphan_first in H as (r0 & rest & E).
  unfold to_digraph, to_dot_output, to_dot, symbol_ref_edges, parse_edges.
  now rewrite E.
Qed.

Lemma orphan_reference_fails_witness :
  to_digraph orphan_asm "0 10 T f" demangle_rust_sym = Raise AttributeError
  /\ to_dot_output orphan_asm "0 10 T f" demangle_rust_sym
     = (["digraph {"], Raise AttributeError).
Proof.
  apply (orphan_reference_fails orphan_asm "0 10 T f" "f").
  vm_compute. auto.
Defined.

(** ** The names of the nodes *)

Lemma decode_edges_escaped (demangle : Demangler) (es : list Edge)
      (des : list (string * string)) :
  decode_edges demangle es = Ok des ->
  forall p, In p des ->
            exists src' dest',
              p = (encode_symbol src', encode_symbol dest').
Proof.
  revert des; induction es as [|e es IH]; intros des H p Hin; simpl in H.
  - injection H as <-. destruct Hin.
  - apply bind_ok in H as (q & Hq & H).
    apply bind_ok in H as (ps & Hps & H). injection H as <-.
    destruct Hin as [<-|Hin]; [|eauto].
    unfold decode_edge in Hq.
    apply bind_ok in Hq as (src' & _ & Hq).
    apply bind_ok in Hq as (dest' & _ & Hq). injection Hq as <-. eauto.
Qed.

(** X15.  Every node of a graph that the builder gives is named by an
    escaped name: the name is the escaped form of a decoded name, and each
    of its double quotes comes right after a backslash. *)
Theorem to_digraph_names_escaped (asm out : string) (demangle : Demangler)
        (gr : DiGraph) (n : string) :
  to_digraph asm out demangle = Ok gr ->
  In n (node_names gr) ->
  (exists s, n = encode_symbol s) /\ quotes_escaped n = true.
Proof.
  intros H Hin.
  destruct (to_digraph_parts _ _ _ _ H)
    as (des & _ & _ & Hdes & _ & _ & Hn & _).
  rewrite Hn in Hin.
  apply add_edges_from_names in Hin as [(e & He & Hx)|[]].
  destruct (decode_edges_escaped _ _ _ Hdes e He) as (src' & dest' & ->).
  cbn [fst snd] in Hx.
  destruct Hx as [-> | ->]; (split; [eauto | apply encode_symbol_escaped]).
Qed.

Lemma to_digraph_names_escaped_witness :
  (exists s, "B" = encode_symbol s) /\ quotes_escaped "B" = true.
Proof.
  apply (to_digraph_names_escaped abbc_asm "0 10 T A" demangle_rust_sym
           (mkDiGraph [("A", Some 16%Z); ("B", None); ("C", None)]
                      [("A", "B"); ("B", "C")]) "B").
  - reflexivity.
  - simpl. auto.
Defined.

(** ** The order of the size table *)

Lemma dict_set_key_list (k : string) (v : Z) (d : SizeDict) :
  map fst (dict_set k v d)
  = if existsb (String.eqb k) (map fst d) then map fst d
    else (map fst d ++ [k])%list.
Proof.
  induction d as [|[k' v'] d IH]; [reflexivity|].
  cbn [dict_set map fst existsb]. rewrite (String.eqb_sym k k').
  destruct (String.eqb k' k); cbn [map fst orb]; [reflexivity|].
  rewrite IH. now destruct (existsb (String.eqb k) (map fst d)).
Qed.

Lemma keep_first_seen (l s1 s2 : list string) :
  (forall x, In x s1 <-> In x s2) -> keep_first l s1 = keep_first l s2.
Proof.
  revert s1 s2; induction l as [|x l IH]; intros s1 s2 H; [reflexivity|].
  cbn [keep_first].
  assert (E : existsb (String.eqb x) s1 = existsb (String.eqb x) s2).
  { apply eq_true_iff_eq. rewrite !existsb_exists. split.
    - intros (y & Hy & Exy). apply String.eqb_eq in Exy as <-.
      exists x. split; [now apply H | apply String.eqb_refl].
    - intros (y & Hy & Exy). apply String.eqb_eq in Exy as <-.
      exists x. split; [now apply H | apply String.eqb_refl]. }
  rewrite E. destruct (existsb (String.eqb x) s2); [now apply IH|].
  f_equal. apply IH. intros y. simpl. now rewrite H.
Qed.

Lemma sizes_loop_keys (lines : list string) (d0 d : SizeDict) :
  sizes_loop lines d0 = Ok d ->
  map fst d
  = (map fst d0 ++ keep_first (map fst (rows_of lines)) (map fst d0))%list.
Proof.
  revert d0; induction lines as [|line lines IH]; intros d0 H.
  - injection H as <-. simpl. now rewrite app_nil_r.
  - unfold rows_of in *. cbn [sizes_loop filter] in *.
    fold (four_fields line) in *.
    destruct (four_fields line).
    + apply bind_ok in H as (z & _ & H). apply IH in H. rewrite H.
      cbn [map fst keep_first]. rewrite dict_set_key_list.
      destruct (existsb (String.eqb (nth 3 (str_split space line) EmptyString))
                        (map fst d0)); [reflexivity|].
      rewrite <- app_assoc. cbn [app]. do 2 f_equal.
      apply keep_first_seen. intros x. rewrite in_app_iff. simpl. tauto.
    + now apply IH.
Qed.

(** X16.  The items of the extracted size table stand in the order in which
    their symbols come first in the four-field lines of the text, a later
    line for a symbol changing its size and not its place; the printer gives
    the size lines in that order. *)
Theorem symbol_sizes_order (out : string) (sizes : SizeDict) :
  symbol_sizes out = Ok sizes ->
  map fst sizes = keep_first (map fst (table_rows out)) [].
Proof. intros H. now apply sizes_loop_keys in H. Qed.

Lemma symbol_sizes_order_witness :
  map fst [("f", 42%Z)] = keep_first (map fst (table_rows nm_sample)) [].
Proof. apply (symbol_sizes_order nm_sample). reflexivity. Defined.

(** ** The order of the references of a line *)

(** X17.  The references of a line are given from left to right, one for
    every place where they stand: a line that begins with characters that
    are no opening bracket and then has a name in brackets gives the name,
    then the references of the rest of the line. *)
Theorem symbol_refs_order (a r b : string) :
  str_count "<" a = 0 ->
  r <> EmptyString -> str_all is_word r = true ->
  symbol_refs (a ++ "<" ++ r ++ ">" ++ b) = r :: symbol_refs b
  /\ forall sym,
      new_symbol_match (a ++ "<" ++ r ++ ">" ++ b) = None ->
      parse_lines sym [a ++ "<" ++ r ++ ">" ++ b]
      = (sym, r) :: map (fun ref => (sym, ref)) (symbol_refs b).
Proof.
  intros Ha Hne Hw.
  assert (E : symbol_refs (a ++ "<" ++ r ++ ">" ++ b) = r :: symbol_refs b).
  { unfold symbol_refs.
    rewrite findall_from_pass with (k := 0); [| exact Ha | lia].
    rewrite str_drop_app. now apply findall_from_match. }
  split; [exact E|].
  intros sym Hn. cbn [parse_lines]. rewrite Hn, E. simpl.
  now rewrite app_nil_r.
Qed.

Lemma symbol_refs_order_witness :
  symbol_refs (" call " ++ "<" ++ "f" ++ ">" ++ " <g>") = "f" :: symbol_refs " <g>"
  /\ forall sym,
      new_symbol_match (" call " ++ "<" ++ "f" ++ ">" ++ " <g>") = None ->
      parse_lines sym [" call " ++ "<" ++ "f" ++ ">" ++ " <g>"]
      = (sym, "f") :: map (fun ref => (sym, ref)) (symbol_refs " <g>").
Proof.
  apply (symbol_refs_order " call " "f" " <g>").
  - reflexivity.
  - discriminate.
  - reflexivity.
Defined.

(** ** Names without escapes *)

Lemma replace_from_plain (old new : string) (c : ascii) (s : string) :
  str_count c s = 0 ->
  replace_from (String c old) new 0 s = s.
Proof.
  induction s as [|x s IH]; [reflexivity|].
  cbn [str_count replace_from startswith].
  destruct (Ascii.eqb x c) eqn:E; [discriminate|].
  intros H. rewrite (Ascii.eqb_sym c x), E. cbn [andb]. now rewrite IH.
Qed.

Lemma unescape_plain (s : string) : str_count "$" s = 0 -> unescape s = s.
Proof.
  intros H. unfold unescape, str_replace.
  now rewrite !(replace_from_plain _ _ _ s H).
Qed.

Lemma str_count_app (c : ascii) (a b : string) :
  str_count c (a ++ b) = str_count c a + str_count c b.
Proof. induction a as [|x a IH]; simpl; [reflexivity | rewrite IH; lia]. Qed.

Lemma str_count_join (c : ascii) (sep : string) (parts : list string) :
  str_count c sep = 0 ->
  Forall (fun p => str_count c p = 0) parts ->
  str_count c (str_join sep parts) = 0.
Proof.
  intros Hsep H. induction H as [|p parts Hp H IH]; [reflexivity|].
  cbn [str_join]. destruct parts as [|p' parts]; [exact Hp|].
  rewrite !str_count_app, Hp, Hsep, IH. reflexivity.
Qed.

(** X18.  A well-formed identifier whose components have no dollar sign is
    decoded to the components before the last one joined with [::], with no
    other change. *)
Theorem demangle_rust_plain
        (comps : list (string * string)) (h : string * string) (rest : string) :
  Forall component comps -> component h ->
  starts_non_numeric rest = true ->
  Forall (fun dc => str_count "$" (snd dc) = 0) comps ->
  demangle_rust (mangled (comps ++ [h]) rest)
  = Ok (str_join "::" (map snd comps)).
Proof.
  intros Hc Hh Hr Hplain.
  rewrite demangle_rust_terminated; auto.
  - rewrite map_app, <- app_assoc. cbn [map app].
    rewrite drop_last_two_app, unescape_plain; [reflexivity|].
    apply str_count_join; [reflexivity|].
    apply Forall_map. exact Hplain.
  - apply Forall_app. auto.
Qed.

Lemma demangle_rust_plain_witness :
  demangle_rust (mangled ([("4", "core"); ("3", "fmt")] ++ [("2", "h1")]) "E")
  = Ok (str_join "::" (map snd [("4", "core"); ("3", "fmt")])).
Proof.
  apply (demangle_rust_plain [("4", "core"); ("3", "fmt")] ("2", "h1") "E").
  - repeat constructor; discriminate.
  - repeat split; discriminate.
  - reflexivity.
  - repeat constructor.
Defined.
